(** * SearchBox: the BM25 indexer, scorer, ranker and snippet extractor

    A shallow embedding of [app.py] (the one-file local search engine) and
    the properties of its indexing / ranking / snippet core.

    Modelling conventions.
    - A Python [str] is a list of characters; characters are the code
      points below 256 ([ascii]).  The tokenizer only keeps ASCII letters
      and digits, and on this range [str.lower] maps one character to one
      character.  The snippet returned to the caller may carry the
      ellipsis U+2026; it is a list of code points ([ustr]).  Outside this
      range [str.lower] can lengthen a text; the part of the snippet code
      that depends on it is repeated over a wider alphabet in the module
      [Wide].
    - A Python [float] is a real number; [int] counters are [nat].  A
      modification time is only stored and compared, it is an integer
      time stamp.
    - [self] is the record [BM25Index]; a method is a function from the
      state to an [outcome]: it returns, raises, or waits for ever on the
      (non re-entrant) [threading.Lock].
    - The directory tree is the list of files that [walk_docs] yields, each
      with the text the loader obtains from it ([None] when it cannot be
      read) and the result of [os.path.getmtime] ([None] when it raises).
      The build time stamp [last_build] is not modelled. *)

From Stdlib Require Import Reals Lra Lia ZArith Ascii String.
From stdpp Require Import gmap strings list fin_maps sorting.

Close Scope string_scope.

(* ===================================================================== *)
(** ** Strings and the tokenizer *)
(* ===================================================================== *)

Abbreviation str := (list ascii).

(** String literals. *)
Definition py (s : string) : str := list_ascii_of_string s.

Definition code (c : ascii) : nat := nat_of_ascii c.

Definition in_range (lo hi : nat) (c : ascii) : bool :=
  (lo <=? code c)%nat && (code c <=? hi)%nat.

Definition is_upper (c : ascii) : bool := in_range 65 90 c.
Definition is_lower (c : ascii) : bool := in_range 97 122 c.
Definition is_digit (c : ascii) : bool := in_range 48 57 c.

(** The character class [[A-Za-z0-9]] of [TOKEN_RE]. *)
Definition is_token_char (c : ascii) : bool :=
  is_upper c || is_lower c || is_digit c.

(** [str.lower] on one code point below 256: A-Z, and the Latin-1
    capitals U+00C0..U+00DE except the multiplication sign U+00D7. *)
Definition lower_char (c : ascii) : ascii :=
  if is_upper c || (in_range 192 222 c && negb (code c =? 215)%nat)
  then ascii_of_nat (code c + 32)
  else c.

Definition lower (s : str) : str := map lower_char s.

(** [TOKEN_RE.findall(text)]: the maximal runs of token characters, left
    to right.  [cur] is the run being read. *)
Fixpoint findall_from (cur : str) (s : str) : list str :=
  match s with
  | [] => match cur with [] => [] | _ => [cur] end
  | c :: s' =>
      if is_token_char c then findall_from (cur ++ [c]) s'
      else match cur with
           | [] => findall_from [] s'
           | _ => cur :: findall_from [] s'
           end
  end.

Definition findall (s : str) : list str := findall_from [] s.

Definition tokenize (text : str) : list str := map lower (findall text).

(** [os.path.basename]: what follows the last slash. *)
Fixpoint basename_from (cur : str) (p : str) : str :=
  match p with
  | [] => cur
  | c :: p' => if (code c =? 47)%nat then basename_from [] p'
               else basename_from (cur ++ [c]) p'
  end.

Definition basename (p : str) : str := basename_from [] p.

(* ===================================================================== *)
(** ** The index and the method monad *)
(* ===================================================================== *)

(** One entry of [self.docs]. *)
Record Doc := mkDoc {
  d_id : nat;
  d_path : str;
  d_title : str;
  d_text : str;
  d_mtime : Z;
  d_len : nat
}.

(** The attributes of a [BM25Index] object; [lock] is [true] while the
    [threading.Lock] is held. *)
Record BM25Index := mkIndex {
  lock : bool;
  docs : list Doc;
  df : gmap str nat;
  tf : list (gmap str nat);
  avgdl : R;
  idf : gmap str R
}.

(** The exceptions the modelled code can raise. *)
Inductive exn := OSError | IndexError | ZeroDivisionError.

(** What a call does: return a value, raise, or wait for the lock.
    Mutations made before a [raise] stay in the state. *)
Inductive outcome (A : Type) :=
| Returned (a : A) (st : BM25Index)
| Raised (e : exn) (st : BM25Index)
| Blocked.
Arguments Returned {A} a st.
Arguments Raised {A} e st.
Arguments Blocked {A}.

Definition M (A : Type) : Type := BM25Index -> outcome A.

Definition ret {A} (a : A) : M A := fun st => Returned a st.

Definition bind {A B} (m : M A) (k : A -> M B) : M B :=
  fun st => match m st with
            | Returned a st' => k a st'
            | Raised e st' => Raised e st'
            | Blocked => Blocked
            end.

Definition raise {A} (e : exn) : M A := fun st => Raised e st.

Definition get : M BM25Index := fun st => Returned st st.

Definition modify (f : BM25Index -> BM25Index) : M unit :=
  fun st => Returned tt (f st).

(** [try: m  except Exception: h]. *)
Definition try_except {A} (m : M A) (h : exn -> M A) : M A :=
  fun st => match m st with
            | Raised e st' => h e st'
            | o => o
            end.

Notation "x <- m ;; k" := (bind m (fun x => k))
  (at level 100, m at next level, right associativity).
Notation "m ;;; k" := (bind m (fun _ => k))
  (at level 100, right associativity).

Definition set_lock (b : bool) (st : BM25Index) : BM25Index :=
  mkIndex b (docs st) (df st) (tf st) (avgdl st) (idf st).

(** [with self.lock: m].  The lock is a plain [threading.Lock]: acquiring
    it while it is held waits until the holder releases it, and when the
    holder is the caller itself that never happens. *)
Definition with_lock {A} (m : M A) : M A :=
  fun st =>
    if lock st then Blocked
    else match m (set_lock true st) with
         | Returned a st' => Returned a (set_lock false st')
         | Raised e st' => Raised e (set_lock false st')
         | Blocked => Blocked
         end.

(* ===================================================================== *)
(** ** The files on disk *)
(* ===================================================================== *)

(** A file yielded by [walk_docs]: its path; the text the loader obtains
    from it when it can be read (decoded, and with the markup stripped for
    an HTML file), [None] when every attempt to open and read it raises;
    and its modification time, [None] when [os.path.getmtime] raises. *)
Record File := mkFile {
  f_path : str;
  f_text : option str;
  f_mtime : option Z
}.

(** [read_text] swallows the errors of all its attempts and falls back to
    the empty string ([strip_html] maps the empty string to itself). *)
Definition file_to_text (f : File) : str :=
  match f_text f with
  | Some text => text
  | None => []
  end.

Definition getmtime (f : File) : M Z :=
  match f_mtime f with
  | Some m => ret m
  | None => raise OSError
  end.

(* ===================================================================== *)
(** ** reindex *)
(* ===================================================================== *)

(** [freq[t] = freq.get(t, 0) + 1] for each token. *)
Definition count_tokens (toks : list str) : gmap str nat :=
  foldl (fun freq t => <[t := default 0 (freq !! t) + 1]> freq) ∅ toks.

(** [for term in freq.keys(): self.df[term] = self.df.get(term, 0) + 1]. *)
Definition bump_df (freq : gmap str nat) (d : gmap str nat) : gmap str nat :=
  foldl (fun d term => <[term := default 0 (d !! term) + 1]> d) d
        (map fst (map_to_list freq)).

(** The assignments at the top of [reindex]. *)
Definition reset (st : BM25Index) : BM25Index :=
  mkIndex (lock st) [] ∅ [] 0%R ∅.

Definition set_df (d : gmap str nat) (st : BM25Index) : BM25Index :=
  mkIndex (lock st) (docs st) d (tf st) (avgdl st) (idf st).

Definition append_doc (d : Doc) (freq : gmap str nat) (st : BM25Index)
  : BM25Index :=
  mkIndex (lock st) (docs st ++ [d]) (df st) (tf st ++ [freq])
          (avgdl st) (idf st).

(** The body of the [try] for the [i]-th file of the walk. *)
Definition index_file (i : nat) (f : File) : M unit :=
  let text := file_to_text f in
  let title := basename (f_path f) in
  let toks := tokenize text in
  let freq := count_tokens toks in
  modify (fun st => set_df (bump_df freq (df st)) st) ;;;
  mtime <- getmtime f ;;
  modify (append_doc (mkDoc i (f_path f) title text mtime (length toks)) freq).

(** [for i, path in enumerate(walk_docs(root)): try ... except: continue]. *)
Fixpoint index_files (i : nat) (fs : list File) : M unit :=
  match fs with
  | [] => ret tt
  | f :: fs' =>
      try_except (index_file i f) (fun _ => ret tt) ;;;
      index_files (S i) fs'
  end.

(** [N = len(self.docs) or 1]. *)
Definition doc_count (ds : list Doc) : nat :=
  match length ds with O => 1 | n => n end.

(** [math.log((N - df + 0.5) / (df + 0.5) + 1.0)]. *)
Definition idf_value (N d : nat) : R :=
  ln ((INR N - INR d + 0.5) / (INR d + 0.5) + 1).

(** The statistics computed after the loop. *)
Definition finalize (st : BM25Index) : BM25Index :=
  let N := doc_count (docs st) in
  mkIndex (lock st) (docs st) (df st) (tf st)
          (INR (sum_list (map d_len (docs st))) / INR N)
          (fmap (idf_value N) (df st)).

Definition reindex (fs : list File) : M unit :=
  with_lock (modify reset ;;; index_files 0 fs ;;; modify finalize).

(** A freshly allocated object, before [__init__] calls [reindex]. *)
Definition blank : BM25Index := mkIndex false [] ∅ [] 0%R ∅.

(** [BM25Index(root)]. *)
Definition init (fs : list File) : outcome unit := reindex fs blank.

(* ===================================================================== *)
(** ** maybe_reindex *)
(* ===================================================================== *)

(** [[(p, os.path.getmtime(p)) for p in walk_docs(root)]]; [None] when one
    of the calls raises. *)
Fixpoint scan (fs : list File) : option (list (str * Z)) :=
  match fs with
  | [] => Some []
  | f :: fs' =>
      match f_mtime f, scan fs' with
      | Some m, Some l => Some ((f_path f, m) :: l)
      | _, _ => None
      end
  end.

Definition have_set (ds : list Doc) : gset (str * Z) :=
  list_to_set (map (fun d => (d_path d, d_mtime d)) ds).

Definition stale (fs : list File) (st : BM25Index) : bool :=
  let snapshot := default [] (scan fs) in
  let now : gset (str * Z) := list_to_set snapshot in
  bool_decide (now <> have_set (docs st)).

Definition maybe_reindex (fs : list File) : M unit :=
  changed <- with_lock (st <- get ;; ret (stale fs st)) ;;
  if changed then reindex fs else ret tt.

(* ===================================================================== *)
(** ** score *)
(* ===================================================================== *)

Definition K1 : R := 1.5.
Definition B : R := 0.75.

(** Float division: [ZeroDivisionError] on a zero divisor. *)
Definition fdiv (x y : R) : M R :=
  if Req_dec_T y 0 then raise ZeroDivisionError else ret (x / y)%R.

(** [d["len"] or 1]. *)
Definition clamp_len (d : Doc) : nat :=
  match d_len d with O => 1 | n => n end.

(** What one query term found in [freq] adds to the score. *)
Definition score_term (d : Doc) (tfv : nat) (idfv k1 b : R) : M R :=
  st <- get ;;
  let dl := clamp_len d in
  r <- fdiv (b * INR dl) (avgdl st) ;;
  let denom := (INR tfv + k1 * (1 - b + r))%R in
  fdiv (idfv * (INR tfv * (k1 + 1))) denom.

(** [for t in q_terms: ...] with the running [score]. *)
Fixpoint score_loop (d : Doc) (freq : gmap str nat) (k1 b : R)
    (q_terms : list str) (score : R) : M R :=
  match q_terms with
  | [] => ret score
  | t :: q' =>
      match freq !! t with
      | None => score_loop d freq k1 b q' score
      | Some tfv =>
          st <- get ;;
          let idfv := default 0%R (idf st !! t) in
          x <- score_term d tfv idfv k1 b ;;
          score_loop d freq k1 b q' (score + x)%R
      end
  end.

Definition score (q_terms : list str) (doc_idx : nat) (k1 b : R) : M R :=
  with_lock (
    st <- get ;;
    match docs st !! doc_idx, tf st !! doc_idx with
    | Some d, Some freq => score_loop d freq k1 b q_terms 0%R
    | _, _ => raise IndexError
    end).

(** [l[i]] for an [int] [i]: a negative index counts from the end of the
    list.  [None] stands for [IndexError]. *)
Definition py_index {A} (l : list A) (i : Z) : option A :=
  if (0 <=? i)%Z then l !! Z.to_nat i
  else if (- Z.of_nat (length l) <=? i)%Z
       then l !! Z.to_nat (Z.of_nat (length l) + i)
       else None.

(** [score] for an arbitrary [int] document number; [score] above is its
    restriction to the numbers from 0 on. *)
Definition score_int (q_terms : list str) (doc_idx : Z) (k1 b : R) : M R :=
  with_lock (
    st <- get ;;
    match py_index (docs st) doc_idx, py_index (tf st) doc_idx with
    | Some d, Some freq => score_loop d freq k1 b q_terms 0%R
    | _, _ => raise IndexError
    end).

(* ===================================================================== *)
(** ** Snippets *)
(* ===================================================================== *)

(** A string of arbitrary code points: the snippet handed to the caller. *)
Abbreviation ustr := (list N).

Definition of_str (s : str) : ustr := map N_of_ascii s.

(** The ellipsis, U+2026. *)
Definition ELLIPSIS : ustr := [8230%N].

Fixpoint starts_with (t s : str) : bool :=
  match t, s with
  | [], _ => true
  | a :: t', c :: s' => bool_decide (a = c) && starts_with t' s'
  | _ :: _, [] => false
  end.

(** [s.find(t)], [None] for -1. *)
Fixpoint find (t s : str) : option nat :=
  match s with
  | [] => if starts_with t [] then Some 0 else None
  | _ :: s' => if starts_with t s then Some 0 else S <$> find t s'
  end.

Definition min_list (l : list nat) : nat :=
  match l with
  | [] => 0
  | p :: ps => foldl Nat.min p ps
  end.

Definition first_hit_span (text : str) (terms : list str) : nat :=
  let low := lower text in
  let positions := omap (fun t => find t low) terms in
  min_list positions.

(** [html.escape(s)] (with [quote=True]). *)
Definition escape_char (c : ascii) : str :=
  if (code c =? 38)%nat then py "&amp;"
  else if (code c =? 60)%nat then py "&lt;"
  else if (code c =? 62)%nat then py "&gt;"
  else if (code c =? 34)%nat then py "&quot;"
  else if (code c =? 39)%nat then py "&#x27;"
  else [c].

Definition html_escape (s : str) : str := concat (map escape_char s).

(** The regex class [\w] on code points below 256: letters, digits,
    numeric characters and the underscore. *)
Definition is_word (c : ascii) : bool :=
  is_token_char c || (code c =? 95)%nat
  || (code c =? 170)%nat || (code c =? 178)%nat || (code c =? 179)%nat
  || (code c =? 181)%nat || (code c =? 185)%nat || (code c =? 186)%nat
  || in_range 188 190 c || in_range 192 214 c || in_range 216 246 c
  || in_range 248 255 c.

Definition is_word_opt (c : option ascii) : bool :=
  match c with Some a => is_word a | None => false end.

(** [\b] between the character [prev] and the character [next]. *)
Definition boundary (prev next : option ascii) : bool :=
  xorb (is_word_opt prev) (is_word_opt next).

(** Literal match under [(?i)]. *)
Fixpoint ci_starts_with (t s : str) : bool :=
  match t, s with
  | [], _ => true
  | a :: t', c :: s' =>
      bool_decide (lower_char a = lower_char c) && ci_starts_with t' s'
  | _ :: _, [] => false
  end.

(** Does [(?i)\b(t)\b] match at the head of [s], [prev] being the
    character before it? *)
Definition match_here (t : str) (prev : option ascii) (s : str) : bool :=
  boundary prev (head s)
  && ci_starts_with t s
  && boundary (last (option_list prev ++ take (length t) s))
              (head (drop (length t) s)).

Definition MARK_OPEN : str := py "<mark>".
Definition MARK_CLOSE : str := py "</mark>".

(** [re.sub(r"(?i)\b(t)\b", r"<mark>\1</mark>", s)] for a non-empty [t]:
    leftmost matches, non overlapping.  [fuel] bounds the characters left. *)
Fixpoint sub_from (fuel : nat) (t : str) (prev : option ascii) (s : str)
  : str :=
  match fuel with
  | O => s
  | S fuel' =>
      match s with
      | [] => []
      | c :: s' =>
          if match_here t prev s
          then MARK_OPEN ++ take (length t) s ++ MARK_CLOSE
               ++ sub_from fuel' t (last (take (length t) s))
                           (drop (length t) s)
          else c :: sub_from fuel' t (Some c) s'
      end
  end.

(** The same substitution for the empty term: the empty match is replaced
    at every word boundary. *)
Fixpoint sub_empty (prev : option ascii) (s : str) : str :=
  (if boundary prev (head s) then MARK_OPEN ++ MARK_CLOSE else [])
  ++ match s with
     | [] => []
     | c :: s' => c :: sub_empty (Some c) s'
     end.

Definition re_sub_mark (t : str) (s : str) : str :=
  match t with
  | [] => sub_empty None s
  | _ => sub_from (length s) t None s
  end.

(** Stable insertion sort, largest key first: what [sort(key=..,
    reverse=True)] does (elements with equal keys keep their order). *)
Section SortDesc.
Context {A K : Type} (key : A -> K) (ltb : K -> K -> bool).

Fixpoint insert_desc (x : A) (l : list A) : list A :=
  match l with
  | [] => [x]
  | y :: l' => if ltb (key x) (key y) then y :: insert_desc x l'
               else x :: y :: l'
  end.

Definition sort_desc (l : list A) : list A := foldr insert_desc [] l.

End SortDesc.

(** The order in which a Python [set] of strings is iterated is not
    specified: it is a parameter, constrained to enumerate the set. *)
Record SetOrder := mkSetOrder {
  set_iter : list str -> list str;
  set_iter_NoDup : forall l, NoDup (set_iter l);
  set_iter_elem : forall l t, t ∈ set_iter l <-> t ∈ l
}.

(** One possible order: first occurrence. *)
Definition first_seen : SetOrder :=
  mkSetOrder remove_dups
             (fun l => NoDup_remove_dups l)
             (fun l t => elem_of_remove_dups l t).

(** [sorted(set(terms), key=len, reverse=True)]. *)
Definition highlight_order (O : SetOrder) (terms : list str) : list str :=
  sort_desc (@length ascii) Nat.ltb (set_iter O terms).

(** [for t in ...: esc = re.sub(..., esc)]. *)
Definition highlight (ts : list str) (esc : str) : str :=
  foldl (fun e t => re_sub_mark t e) esc ts.

Definition make_snippet (O : SetOrder) (text : str) (terms : list str)
    (width : nat) : ustr :=
  let pos := first_hit_span text terms in
  let start := Nat.max 0 (pos - width / 4) in
  let end_ := Nat.min (length text) (start + width) in
  let chunk := take (end_ - start) (drop start text) in
  let esc := highlight (highlight_order O terms) (html_escape chunk) in
  let prefix := if (0 <? start)%nat then ELLIPSIS else [] in
  let suffix := if (end_ <? length text)%nat then ELLIPSIS else [] in
  prefix ++ of_str esc ++ suffix.

(* ===================================================================== *)
(** ** Text beyond Latin-1 *)
(* ===================================================================== *)

(** [str.lower] does not keep the length of every text: it turns U+0130
    (capital I with a dot above) into the two code points U+0069 U+0307.
    This module repeats [first_hit_span], and [make_snippet] up to the cut
    of the window and the two ellipsis tests, over a wider alphabet: the
    code points below 256, U+0130 and U+0307. *)
Module Wide.

Inductive char : Type :=
  | Latin (a : ascii)
  | I_DOT
  | DOT_ABOVE.

Definition text := list char.

(** A string over code points below 256, in the wider alphabet. *)
Definition widen (s : str) : text := map Latin s.

Definition char_eqb (x y : char) : bool :=
  match x, y with
  | Latin a, Latin b => bool_decide (a = b)
  | I_DOT, I_DOT => true
  | DOT_ABOVE, DOT_ABOVE => true
  | _, _ => false
  end.

(** [c.lower()] for one character [c]. *)
Definition lower_char (c : char) : text :=
  match c with
  | Latin a => [Latin (lower_char a)]
  | I_DOT => [Latin "i"%char; DOT_ABOVE]
  | DOT_ABOVE => [DOT_ABOVE]
  end.

Definition lower (s : text) : text := flat_map lower_char s.

Fixpoint starts_with (t s : text) : bool :=
  match t, s with
  | [], _ => true
  | a :: t', c :: s' => char_eqb a c && starts_with t' s'
  | _ :: _, [] => false
  end.

(** [s.find(t)], [None] for -1. *)
Fixpoint find (t s : text) : option nat :=
  match s with
  | [] => if starts_with t [] then Some 0 else None
  | _ :: s' => if starts_with t s then Some 0 else S <$> find t s'
  end.

Definition first_hit_span (txt : text) (terms : list text) : nat :=
  let low := lower txt in
  let positions := omap (fun t => find t low) terms in
  min_list positions.

(** What [make_snippet] computes before and after it escapes and
    highlights the chunk: [start], [end], [chunk = text[start:end]], and
    whether the ellipsis is written in front and behind. *)
Record window := mkWindow {
  w_start : nat;
  w_end : nat;
  w_chunk : text;
  w_prefix : bool;
  w_suffix : bool
}.

Definition make_snippet_window (txt : text) (terms : list text)
    (width : nat) : window :=
  let pos := first_hit_span txt terms in
  let start := Nat.max 0 (pos - width / 4) in
  let end_ := Nat.min (length txt) (start + width) in
  let chunk := take (end_ - start) (drop start txt) in
  mkWindow start end_ chunk (0 <? start)%nat (end_ <? length txt)%nat.

End Wide.

(* ===================================================================== *)
(** ** search *)
(* ===================================================================== *)

(** A result record.  [r_path] is the document's path ([os.path.relpath]
    is not modelled) and [r_score] the score before it is rounded for
    display. *)
Record Result := mkResult {
  r_title : str;
  r_path : str;
  r_score : R;
  r_snippet : ustr;
  r_mtime : Z
}.

Definition Rltb (x y : R) : bool := if Rlt_dec x y then true else false.

(** [l[:limit]] for an [int] limit: a negative one counts from the end. *)
Definition slice_to {A} (limit : Z) (l : list A) : list A :=
  if (0 <=? limit)%Z then take (Z.to_nat limit) l
  else take (length l - Z.to_nat (- limit)) l.

(** [for i, d in enumerate(self.docs): s = self.score(q_terms, i); ...],
    run while [search] holds the lock. *)
Fixpoint score_all (q_terms : list str) (i : nat) (ds : list Doc)
  : M (list (R * nat)) :=
  match ds with
  | [] => ret []
  | _ :: ds' =>
      s <- score q_terms i K1 B ;;
      rest <- score_all q_terms (S i) ds' ;;
      ret (if Rltb 0 s then (s, i) :: rest else rest)
  end.

(** [for s, i in scores[:limit]: ...]. *)
Fixpoint build_results (O : SetOrder) (q_terms : list str)
    (hits : list (R * nat)) : M (list Result) :=
  match hits with
  | [] => ret []
  | (s, i) :: hits' =>
      st <- get ;;
      match docs st !! i with
      | None => raise IndexError
      | Some d =>
          let snippet := make_snippet O (d_text d) q_terms 240 in
          rest <- build_results O q_terms hits' ;;
          ret (mkResult (d_title d) (d_path d) s snippet (d_mtime d) :: rest)
      end
  end.

Definition search (O : SetOrder) (fs : list File) (query : str) (limit : Z)
  : M (list Result) :=
  maybe_reindex fs ;;;
  let q_terms := tokenize query in
  match q_terms with
  | [] => ret []
  | _ =>
      scores <- with_lock (st <- get ;; score_all q_terms 0 (docs st)) ;;
      let scores := sort_desc fst Rltb scores in
      build_results O q_terms (slice_to limit scores)
  end.

(* ===================================================================== *)
(** ** What a build pass computes *)
(* ===================================================================== *)

(** The term-frequency table of one file. *)
Definition file_freq (f : File) : gmap str nat :=
  count_tokens (tokenize (file_to_text f)).

(** The documents appended by the loop, the first file being number [i]:
    one per file whose [getmtime] succeeds. *)
Fixpoint built_docs (i : nat) (fs : list File) : list Doc :=
  match fs with
  | [] => []
  | f :: fs' =>
      match f_mtime f with
      | Some m =>
          mkDoc i (f_path f) (basename (f_path f)) (file_to_text f) m
                (length (tokenize (file_to_text f)))
          :: built_docs (S i) fs'
      | None => built_docs (S i) fs'
      end
  end.

(** The tables appended by the loop, one per document. *)
Fixpoint built_tf (fs : list File) : list (gmap str nat) :=
  match fs with
  | [] => []
  | f :: fs' =>
      match f_mtime f with
      | Some _ => file_freq f :: built_tf fs'
      | None => built_tf fs'
      end
  end.

(** The document-frequency table after the loop: every file of the walk
    bumps it, whatever happens to the file afterwards. *)
Definition built_df (fs : list File) (d : gmap str nat) : gmap str nat :=
  foldl (fun d f => bump_df (file_freq f) d) d fs.

(** The index a pass over [fs] leaves behind. *)
Definition built (fs : list File) : BM25Index :=
  finalize (mkIndex false (built_docs 0 fs) (built_df fs ∅) (built_tf fs)
                    0%R ∅).

(** The file is still there when its modification time is read. *)
Definition has_mtime (f : File) : Prop := is_Some (f_mtime f).

(** The number of tables of [tabs] that contain [t]. *)
Definition containing (t : str) (tabs : list (gmap str nat)) : nat :=
  length (filter (fun fr : gmap str nat => is_Some (fr !! t)) tabs).

(** The state [search] works on once [maybe_reindex] is done. *)
Definition refreshed (fs : list File) (st : BM25Index) : BM25Index :=
  if stale fs st then built fs else st.

(* ===================================================================== *)
(** ** The BM25 sum of the specification *)
(* ===================================================================== *)

Section Bm25.
Local Open Scope R_scope.

(** The sum of a list of reals. *)
Fixpoint Rsum (l : list R) : R :=
  match l with
  | [] => 0
  | x :: l' => x + Rsum l'
  end.

(** The BM25 term of the specification. *)
Definition bm25_term (idfv : R) (tfv dl : nat) (avg k1 b : R) : R :=
  idfv * INR tfv * (k1 + 1)
  / (INR tfv + k1 * (1 - b + b * INR dl / avg)).

(** What the query term [t] contributes for document [d] with table
    [freq]. *)
Definition contribution (st : BM25Index) (d : Doc) (freq : gmap str nat)
    (k1 b : R) (t : str) : R :=
  bm25_term (default 0 (idf st !! t)) (default O (freq !! t))
            (Nat.max 1 (d_len d)) (avgdl st) k1 b.

(** The query terms present in the table, in query order. *)
Definition present (freq : gmap str nat) (q_terms : list str) : list str :=
  filter (fun t => is_Some (freq !! t)) q_terms.

(** The sum of the contributions of the query terms present in the
    table. *)
Definition bm25 (st : BM25Index) (d : Doc) (freq : gmap str nat)
    (k1 b : R) (q_terms : list str) : R :=
  Rsum (map (contribution st d freq k1 b) (present freq q_terms)).

End Bm25.

(* ===================================================================== *)
(** ** Occurrences of a term in a text *)
(* ===================================================================== *)

(** [str.isspace] on code points below 256. *)
Definition is_space (c : ascii) : bool :=
  in_range 9 13 c || in_range 28 32 c
  || (code c =? 133)%nat || (code c =? 160)%nat.

(** [t] is found in [s] at offset [p]. *)
Definition at_offset (t : str) (p : nat) (s : str) : Prop :=
  exists pre post, s = pre ++ t ++ post /\ length pre = p.

(** The term [t] occurs in [text] at offset [p], letter case apart:
    [text[p : p + len(t)].lower() == t.lower()]. *)
Definition ci_occurs_at (t : str) (p : nat) (text : str) : Prop :=
  exists pre occ post,
    text = pre ++ occ ++ post /\ length pre = p /\ lower occ = lower t.

(** A lower-case term, as [tokenize] returns its tokens. *)
Definition lower_case (t : str) : Prop := lower t = t.

(** A term as the tokenizer produces it: non-empty, letters and digits. *)
Definition token (t : str) : Prop :=
  t <> [] /\ Forall (fun c => is_token_char c = true) t.

(** The substitution on a whole string, [prev] being the character in
    front of it. *)
Definition sub (t : str) (prev : option ascii) (s : str) : str :=
  sub_from (length s) t prev s.

(** The character in front of what follows [pre]. *)
Definition before (prev : option ascii) (pre : str) : option ascii :=
  last (option_list prev ++ pre).

(* ===================================================================== *)
(** ** Directory contents used in the examples *)
(* ===================================================================== *)

(** [k] capital I's with a dot above (U+0130), followed by [apple]. *)
Definition dotted_apple (k : nat) : Wide.text :=
  replicate k Wide.I_DOT ++ Wide.widen (py "apple").

(** One readable file holding the token [apple]. *)
Definition fs_apple : list File :=
  [mkFile (py "a.txt") (Some (py "apple")) (Some 0%Z)].

(** One file is read (its text holds the token [apple]) and is gone when
    its modification time is asked for; nothing else is on disk. *)
Definition fs_lost : list File :=
  [mkFile (py "a.txt") (Some (py "apple")) None].

(** The same, next to a second file that is indexed normally. *)
Definition fs_race : list File :=
  [mkFile (py "a.txt") (Some (py "apple")) None;
   mkFile (py "b.txt") (Some (py "apple")) (Some 0%Z)].



(* ===================================================================== *)
(** ** Further notions used by the properties of the index *)
(* ===================================================================== *)

(** [sum(freq.values())]: the number of token occurrences a table
    records. *)
Definition total_freq (freq : gmap str nat) : nat :=
  sum_list_with snd (map_to_list freq).




(** Equality of two floats can be tested. *)
#[global] Instance Req_decision (x y : R) : Decision (x = y) :=
  Req_dec_T x y.

(** The characters that [html.escape] must not let through: less-than,
    greater-than and the two quotes. *)
Definition is_markup_char (c : ascii) : bool :=
  (code c =? 60)%nat || (code c =? 62)%nat
  || (code c =? 34)%nat || (code c =? 39)%nat.

(* ===================================================================== *)
(** ** walk_docs and the paths of the web handler *)
(* ===================================================================== *)

Definition SLASH : ascii := "/"%char.
Definition DOT : ascii := "."%char.

(** [s.rfind(c)] for a character [c]; [None] is -1. *)
Fixpoint rfind (c : ascii) (s : str) : option nat :=
  match s with
  | [] => None
  | x :: s' =>
      match rfind c s' with
      | Some i => Some (S i)
      | None => if bool_decide (x = c) then Some 0 else None
      end
  end.

(** [os.path.splitext]: the extension starts at the last dot, provided
    the dot comes after the last slash and some character between that
    slash and the dot is not a dot. *)
Definition splitext (p : str) : str * str :=
  match rfind DOT p with
  | Some dot =>
      let filename := match rfind SLASH p with Some i => S i | None => 0 end in
      if (filename <=? dot)
         && existsb (fun x => negb (bool_decide (x = DOT)))
                    (take (dot - filename) (drop filename p))
      then (take dot p, drop dot p)
      else (p, [])
  | None => (p, [])
  end.

(** The extensions [walk_docs] lets through. *)
Definition exts : list str := [py ".md"; py ".txt"; py ".html"; py ".htm"].

(** [os.path.splitext(fn)[1].lower() in exts]. *)
Definition indexed (fn : str) : bool :=
  bool_decide (lower (splitext fn).2 ∈ exts).

(** [os.path.join(a, b)] for two arguments. *)
Definition path_join (a b : str) : str :=
  if starts_with [SLASH] b then b
  else if bool_decide (a = []) || bool_decide (last a = Some SLASH)
       then a ++ b
       else a ++ SLASH :: b.

(** [walk_docs], over the [(base, files)] pairs that [os.walk] yields. *)
Definition walk_docs (walk : list (str * list str)) : list str :=
  flat_map (fun bf => map (path_join bf.1) (filter (fun fn => indexed fn = true) bf.2))
           walk.

(** [s.split(sep)] for a character [sep]; [cur] is the piece being
    read. *)
Fixpoint split_from (sep : ascii) (cur : str) (s : str) : list str :=
  match s with
  | [] => [cur]
  | c :: s' =>
      if bool_decide (c = sep) then cur :: split_from sep [] s'
      else split_from sep (cur ++ [c]) s'
  end.

Definition split (sep : ascii) (s : str) : list str := split_from sep [] s.

(** [sep.join(l)]. *)
Fixpoint join_with (sep : str) (l : list str) : str :=
  match l with
  | [] => []
  | [x] => x
  | x :: l' => x ++ sep ++ join_with sep l'
  end.

(** One round of the loop of [os.path.normpath]; [rooted] tells whether
    the path starts with a slash. *)
Definition norm_step (rooted : bool) (new_comps : list str) (comp : str)
  : list str :=
  if bool_decide (comp = []) || bool_decide (comp = [DOT]) then new_comps
  else if negb (bool_decide (comp = [DOT; DOT]))
          || (negb rooted && bool_decide (new_comps = []))
          || bool_decide (last new_comps = Some [DOT; DOT])
       then new_comps ++ [comp]
       else removelast new_comps.

(** [os.path.normpath]. *)
Definition normpath (path : str) : str :=
  match path with
  | [] => [DOT]
  | _ =>
      let initial_slashes :=
        if starts_with [SLASH] path
        then if starts_with [SLASH; SLASH] path
                && negb (starts_with [SLASH; SLASH; SLASH] path)
             then 2 else 1
        else 0 in
      let comps :=
        foldl (norm_step (0 <? initial_slashes)) [] (split SLASH path) in
      let p := replicate initial_slashes SLASH ++ join_with [SLASH] comps in
      match p with
      | [] => [DOT]
      | _ => p
      end
  end.

(** [rel.replace("\\", "/")]. *)
Definition unbackslash (rel : str) : str :=
  map (fun c => if (code c =? 92)%nat then SLASH else c) rel.

(** [os.path.abspath(os.path.join(root, rel))] in the handlers of [/raw]
    and [/open]; [root] is absolute, so the joined path is absolute and
    [abspath] is [normpath]. *)
Definition resolve (root rel : str) : str :=
  normpath (path_join root (unbackslash rel)).

(** What the handlers serve: [None] is the 404 answer, [exists_] the file
    system's [os.path.exists]. *)
Definition served (exists_ : str -> bool) (root rel : str) : option str :=
  let abs_path := resolve root rel in
  if negb (starts_with root abs_path) || negb (exists_ abs_path)
  then None
  else Some abs_path.

(** [shquote]. *)
Definition shquote (s : str) : str :=
  py "'"
  ++ concat (map (fun c => if (code c =? 39)%nat then py "'\''" else [c]) s)
  ++ py "'".

(** A path component that [normpath] keeps as it is: not empty, without
    a slash, and neither [.] nor [..]. *)
Definition component (c : str) : Prop :=
  c <> [] /\ (SLASH ∉ c) /\ c <> [DOT] /\ c <> [DOT; DOT].

(** No backslash, so that [replace("\\", "/")] changes nothing. *)
Definition no_backslash (s : str) : Prop :=
  Forall (fun c => code c <> 92) s.

(** The absolute path with the given components, as [os.path.abspath]
    returns it for the root directory. *)
Definition abs_of (comps : list str) : str :=
  SLASH :: join_with [SLASH] comps.

(* ===================================================================== *)
(** * Properties *)
(* ===================================================================== *)

Lemma index_files_spec fs : forall i st,
  index_files i fs st =
  Returned tt (mkIndex (lock st) (docs st ++ built_docs i fs)
                       (built_df fs (df st)) (tf st ++ built_tf fs)
                       (avgdl st) (idf st)).
Proof.
  induction fs as [|f fs IH]; intros i st.
  - cbn. rewrite !app_nil_r. by destruct st.
  - cbn [index_files]. unfold bind at 1.
    unfold try_except, index_file, bind, modify, getmtime.
    cbn [built_docs built_tf built_df foldl].
    destruct (f_mtime f) as [m|]; cbn.
    + rewrite IH. cbn. by rewrite <- !app_assoc.
    + rewrite IH. by cbn.
Qed.

Lemma reindex_spec fs st :
  lock st = false -> reindex fs st = Returned tt (built fs).
Proof.
  intros Hl. unfold reindex, with_lock. rewrite Hl.
  unfold bind at 1. unfold modify at 1. unfold bind.
  rewrite index_files_spec. by cbn.
Qed.

Lemma reindex_locked fs st : lock st = true -> reindex fs st = Blocked.
Proof. intros Hl. unfold reindex, with_lock. by rewrite Hl. Qed.

Lemma init_spec fs : init fs = Returned tt (built fs).
Proof. by apply reindex_spec. Qed.

Lemma built_lock fs : lock (built fs) = false.
Proof. done. Qed.

Lemma built_docs_eq fs : docs (built fs) = built_docs 0 fs.
Proof. done. Qed.

Lemma built_tf_eq fs : tf (built fs) = built_tf fs.
Proof. done. Qed.

Lemma built_df_eq fs : df (built fs) = built_df fs ∅.
Proof. done. Qed.

Lemma built_idf_eq fs :
  idf (built fs) =
  fmap (idf_value (doc_count (built_docs 0 fs))) (built_df fs ∅).
Proof. done. Qed.

Lemma built_avgdl_eq fs :
  avgdl (built fs) =
  (INR (sum_list (map d_len (built_docs 0 fs)))
   / INR (doc_count (built_docs 0 fs)))%R.
Proof. done. Qed.

(** *** Term frequencies *)

Lemma filter_eq_absent (t : str) (toks : list str) :
  t ∉ toks -> filter (t =.) toks = [].
Proof.
  induction toks as [|a toks IH]; intros Hn; [done|].
  rewrite filter_cons_False.
  - apply IH. intros ?. apply Hn. by right.
  - intros ->. apply Hn. by left.
Qed.

Lemma count_step_lookup (toks : list str) : forall (m : gmap str nat) t,
  foldl (fun freq t => <[t := default 0 (freq !! t) + 1]> freq) m toks !! t
  = if decide (t ∈ toks)
    then Some (default 0 (m !! t) + length (filter (t =.) toks))
    else m !! t.
Proof.
  induction toks as [|a toks IH]; intros m t; cbn [foldl].
  - destruct (decide (t ∈ [])) as [Hin|_]; [|done]. by apply elem_of_nil in Hin.
  - rewrite IH. rewrite filter_cons.
    destruct (decide (t = a)) as [->|Hne].
    + rewrite lookup_insert_eq. simpl.
      destruct (decide (a ∈ a :: toks)) as [_|Hn]; [|destruct Hn; by left].
      destruct (decide (a ∈ toks)) as [Hin|Hnin]; f_equal; [lia|].
      rewrite filter_eq_absent by done. simpl. lia.
    + rewrite lookup_insert_ne by done.
      destruct (decide (t ∈ toks)) as [Hin|Hnin];
        destruct (decide (t ∈ a :: toks)) as [Hin'|Hnin']; try done.
      * destruct Hnin'. by right.
      * apply elem_of_cons in Hin' as [?|?]; done.
Qed.

Lemma count_tokens_lookup toks t :
  count_tokens toks !! t
  = if decide (t ∈ toks) then Some (length (filter (t =.) toks)) else None.
Proof.
  unfold count_tokens. rewrite count_step_lookup, lookup_empty. done.
Qed.

Lemma count_tokens_is_Some toks t :
  is_Some (count_tokens toks !! t) <-> t ∈ toks.
Proof.
  rewrite count_tokens_lookup. case_decide; split; intros H'; try done.
Qed.

Lemma count_tokens_pos toks t n : count_tokens toks !! t = Some n -> 1 <= n.
Proof.
  rewrite count_tokens_lookup. case_decide as Hin; [|done].
  intros [= <-]. apply list_elem_of_split in Hin as (l1 & l2 & ->).
  rewrite filter_app, filter_cons, decide_True by done.
  rewrite length_app. cbn. lia.
Qed.

(** *** Document frequencies *)

Lemma bump_step_lookup (l : list str) : forall (d : gmap str nat) t,
  NoDup l ->
  foldl (fun d term => <[term := default 0 (d !! term) + 1]> d) d l !! t
  = if decide (t ∈ l) then Some (default 0 (d !! t) + 1) else d !! t.
Proof.
  induction l as [|a l IH]; intros d t Hnd; cbn [foldl].
  - destruct (decide (t ∈ [])) as [Hin|_]; [|done]. by apply elem_of_nil in Hin.
  - apply NoDup_cons in Hnd as [Ha Hnd]. rewrite IH by done.
    destruct (decide (t = a)) as [->|Hne].
    + destruct (decide (a ∈ l)); [done|]. rewrite lookup_insert_eq.
      destruct (decide (a ∈ a :: l)) as [_|Hn]; [done|]. destruct Hn; by left.
    + rewrite lookup_insert_ne by done.
      destruct (decide (t ∈ l)) as [Hin|Hnin];
        destruct (decide (t ∈ a :: l)) as [Hin'|Hnin']; try done.
      * destruct Hnin'. by right.
      * apply elem_of_cons in Hin' as [?|?]; done.
Qed.

Lemma bump_df_lookup (freq d : gmap str nat) t :
  bump_df freq d !! t
  = match freq !! t with
    | Some _ => Some (default 0 (d !! t) + 1)
    | None => d !! t
    end.
Proof.
  unfold bump_df. rewrite bump_step_lookup by apply NoDup_fst_map_to_list.
  destruct (freq !! t) as [n|] eqn:Hf.
  - rewrite decide_True; [done|].
    apply list_elem_of_fmap. exists (t, n). split; [done|].
    by apply elem_of_map_to_list.
  - rewrite decide_False; [done|].
    intros ([t' n] & -> & Hin)%list_elem_of_fmap.
    apply elem_of_map_to_list in Hin. cbn in Hf. congruence.
Qed.

Lemma containing_cons t fr tabs :
  containing t (fr :: tabs)
  = (if decide (is_Some (fr !! t)) then 1 else 0) + containing t tabs.
Proof.
  unfold containing. rewrite filter_cons. by case_decide.
Qed.

Lemma containing_le t tabs : containing t tabs <= length tabs.
Proof. apply length_filter. Qed.

Lemma built_df_lookup fs : forall (d : gmap str nat) t,
  built_df fs d !! t
  = match containing t (map file_freq fs) with
    | O => d !! t
    | n => Some (default 0 (d !! t) + n)
    end.
Proof.
  induction fs as [|f fs IH]; intros d t; [done|].
  cbn [built_df foldl map]. fold (built_df fs (bump_df (file_freq f) d)).
  rewrite IH, containing_cons, bump_df_lookup.
  destruct (file_freq f !! t) as [n|] eqn:Hf.
  - rewrite decide_True by eauto. cbn [default].
    destruct (containing t (map file_freq fs)); cbn; f_equal; lia.
  - rewrite decide_False by (by intros [? ?]). done.
Qed.

(** The stored document frequency of [t] is the number of walked files
    whose text contains [t] - skipped files included. *)
Lemma df_counts_walked_files fs t :
  default 0 (df (built fs) !! t) = containing t (map file_freq fs).
Proof.
  rewrite built_df_eq, built_df_lookup, lookup_empty.
  by destruct (containing t (map file_freq fs)).
Qed.

Lemma df_is_Some fs t n :
  df (built fs) !! t = Some n -> n = containing t (map file_freq fs) /\ 1 <= n.
Proof.
  rewrite built_df_eq, built_df_lookup, lookup_empty.
  destruct (containing t (map file_freq fs)); [done|].
  intros [= <-]. cbn. lia.
Qed.

Lemma built_tf_kept fs :
  built_tf fs = map file_freq (filter has_mtime fs).
Proof.
  induction fs as [|f fs IH]; [done|]. cbn [built_tf].
  destruct (f_mtime f) as [m|] eqn:Hm.
  - rewrite filter_cons_True by (unfold has_mtime; rewrite Hm; eauto).
    cbn. by rewrite IH.
  - rewrite filter_cons_False; [done|].
    unfold has_mtime. rewrite Hm. by intros [? ?].
Qed.

Lemma built_docs_length fs : forall i,
  length (built_docs i fs) = length (built_tf fs).
Proof.
  induction fs as [|f fs IH]; intros i; [done|]. cbn.
  destruct (f_mtime f); cbn; by rewrite IH.
Qed.

(** When every file of the walk is indexed, [df] counts the documents of
    the snapshot that contain the term, and is at most their number. *)
Lemma df_clean_build fs t :
  Forall has_mtime fs ->
  default 0 (df (built fs) !! t) = containing t (tf (built fs))
  /\ default 0 (df (built fs) !! t) <= length (docs (built fs)).
Proof.
  intros Hall. rewrite df_counts_walked_files, built_tf_eq, built_docs_eq.
  rewrite built_docs_length, built_tf_kept.
  assert (filter has_mtime fs = fs) as ->.
  { clear t. induction Hall as [|f fs Hf _ IH]; [done|].
    rewrite filter_cons, decide_True by done. by rewrite IH. }
  split; [done|]. apply containing_le.
Qed.

(** *** The documents of a snapshot *)



(** Documents and tables are appended together. *)
Lemma built_docs_tf fs : forall i k d,
  built_docs i fs !! k = Some d ->
  exists f, f ∈ fs /\ built_tf fs !! k = Some (file_freq f)
    /\ d_len d = length (tokenize (file_to_text f)).
Proof.
  induction fs as [|f fs IH]; intros i k d Hk; [done|]. cbn in Hk |- *.
  destruct (f_mtime f) as [m|].
  - destruct k as [|k]; cbn in Hk |- *.
    + injection Hk as <-. exists f. split; [by left|done].
    + apply IH in Hk as (f' & Hin & Htf & Hlen). exists f'.
      split; [by right|done].
  - apply IH in Hk as (f' & Hin & Htf & Hlen). exists f'.
    split; [by right|done].
Qed.

(* ===================================================================== *)
(** ** The inverse document frequency *)
(* ===================================================================== *)

Section IdfFacts.
Local Open Scope R_scope.

Lemma INR_half_pos (d : nat) : 0 < INR d + 0.5.
Proof. pose proof (pos_INR d). lra. Qed.

(** The argument of the logarithm is [(N + 1) / (df + 0.5)]: it is always
    positive, so [math.log] never raises. *)
Lemma idf_arg_eq (N d : nat) :
  (INR N - INR d + 0.5) / (INR d + 0.5) + 1 = (INR N + 1) / (INR d + 0.5).
Proof.
  pose proof (INR_half_pos d) as Hd. revert Hd.
  replace 0.5 with (/ 2) by lra. intros Hd. field. lra.
Qed.

Lemma idf_arg_pos (N d : nat) :
  0 < (INR N - INR d + 0.5) / (INR d + 0.5) + 1.
Proof.
  rewrite idf_arg_eq. apply Rdiv_lt_0_compat; [|apply INR_half_pos].
  pose proof (pos_INR N). lra.
Qed.

Lemma ln_nonneg (x : R) : 1 <= x -> 0 <= ln x.
Proof.
  intros [Hlt| <-].
  - left. rewrite <- ln_1. apply ln_increasing; lra.
  - rewrite ln_1. lra.
Qed.

Lemma idf_value_nonneg (N d : nat) : (d <= N)%nat -> 0 <= idf_value N d.
Proof.
  intros Hle. unfold idf_value. rewrite idf_arg_eq.
  apply le_INR in Hle. pose proof (INR_half_pos d) as Hd.
  apply ln_nonneg.
  apply Rmult_le_reg_r with (INR d + 0.5); [done|].
  unfold Rdiv. rewrite Rmult_assoc, Rinv_l by lra. lra.
Qed.

Lemma idf_value_neg (N d : nat) : (N < d)%nat -> idf_value N d < 0.
Proof.
  intros Hlt. unfold idf_value. rewrite idf_arg_eq.
  assert (INR N + 1 <= INR d) as Hle.
  { rewrite <- S_INR. apply le_INR. lia. }
  pose proof (INR_half_pos d) as Hd. pose proof (pos_INR N) as HN.
  rewrite <- ln_1. apply ln_increasing.
  - apply Rdiv_lt_0_compat; lra.
  - apply Rmult_lt_reg_r with (INR d + 0.5); [done|].
    unfold Rdiv. rewrite Rmult_assoc, Rinv_l by lra. lra.
Qed.

(** With [N] fixed, a larger document frequency gives a strictly smaller
    value. *)
Lemma idf_value_decreasing (N d1 d2 : nat) :
  (d1 < d2)%nat -> idf_value N d2 < idf_value N d1.
Proof.
  intros Hlt. unfold idf_value. rewrite !idf_arg_eq.
  apply lt_INR in Hlt.
  pose proof (INR_half_pos d1) as H1. pose proof (INR_half_pos d2) as H2.
  pose proof (pos_INR N) as HN.
  apply ln_increasing; [apply Rdiv_lt_0_compat; lra|].
  unfold Rdiv. apply Rmult_lt_compat_l; [lra|].
  apply Rinv_lt_contravar; [|lra]. apply Rmult_lt_0_compat; lra.
Qed.

(** Every term of [df] gets its value, computed with
    [N = len(self.docs) or 1]. *)
Lemma idf_lookup fs t :
  idf (built fs) !! t
  = idf_value (doc_count (docs (built fs))) <$> df (built fs) !! t.
Proof. rewrite built_idf_eq, lookup_fmap. done. Qed.

End IdfFacts.

(* ===================================================================== *)
(** ** What score computes *)
(* ===================================================================== *)

Section ScoreFacts.
Local Open Scope R_scope.

Lemma clamp_len_max d : clamp_len d = Nat.max 1 (d_len d).
Proof. unfold clamp_len. destruct (d_len d); lia. Qed.

Lemma clamp_len_pos d : 1 <= INR (clamp_len d).
Proof.
  rewrite clamp_len_max. change 1 with (INR 1). apply le_INR. lia.
Qed.

Lemma denom_pos (tfv dl : nat) (avg : R) :
  0 < avg -> 0 < INR tfv + K1 * (1 - B + B * INR dl / avg).
Proof.
  intros Havg. pose proof (pos_INR tfv). pose proof (pos_INR dl).
  assert (0 <= B * INR dl / avg).
  { unfold Rdiv, B. apply Rmult_le_pos; [|left; by apply Rinv_0_lt_compat].
    apply Rmult_le_pos; lra. }
  unfold K1, B in *. lra.
Qed.

Lemma score_term_spec d tfv idfv st :
  0 < avgdl st ->
  score_term d tfv idfv K1 B st
  = Returned (bm25_term idfv tfv (clamp_len d) (avgdl st) K1 B) st.
Proof.
  intros Havg. unfold score_term, bind, get, fdiv.
  destruct (Req_dec_T (avgdl st) 0) as [E|_]; [rewrite E in Havg; lra|].
  unfold ret at 1.
  destruct (Req_dec_T _ 0) as [Hz|_].
  - pose proof (denom_pos tfv (clamp_len d) (avgdl st) Havg). lra.
  - unfold ret, bm25_term. f_equal. f_equal. ring.
Qed.

Lemma score_loop_spec d freq q : forall acc st,
  ((exists t, t ∈ q /\ is_Some (freq !! t)) -> 0 < avgdl st) ->
  score_loop d freq K1 B q acc st
  = Returned (acc + bm25 st d freq K1 B q) st.
Proof.
  induction q as [|t q IH]; intros acc st Havg.
  - cbn. unfold ret, bm25. cbn. f_equal. ring.
  - cbn [score_loop]. unfold bm25, present. rewrite filter_cons.
    destruct (freq !! t) as [tfv|] eqn:Hf.
    + rewrite decide_True by eauto.
      unfold bind at 1. unfold get at 1. unfold bind at 1.
      rewrite score_term_spec.
      2:{ apply Havg. exists t. split; [by left|]. rewrite Hf. eauto. }
      rewrite IH.
      2:{ intros (t' & Hin & Hs). apply Havg. exists t'. split; [by right|done]. }
      f_equal. cbn [map Rsum]. unfold contribution at 1. rewrite Hf.
      rewrite <- clamp_len_max. unfold bm25, present.
      change (default O (Some tfv)) with tfv. ring.
    + rewrite decide_False by (by intros [? ?]).
      rewrite IH; [done|].
      intros (t' & Hin & Hs). apply Havg. exists t'. split; [by right|done].
Qed.

Lemma unlock_relock st :
  lock st = false -> set_lock false (set_lock true st) = st.
Proof. destruct st; cbn. by intros ->. Qed.

Lemma score_spec st q i d freq :
  lock st = false ->
  docs st !! i = Some d -> tf st !! i = Some freq ->
  ((exists t, t ∈ q /\ is_Some (freq !! t)) -> 0 < avgdl st) ->
  score q i K1 B st = Returned (bm25 st d freq K1 B q) st.
Proof.
  intros Hl Hd Hf Havg. unfold score, with_lock. rewrite Hl.
  unfold bind, get. cbn [docs tf set_lock]. rewrite Hd, Hf.
  rewrite score_loop_spec by done.
  rewrite unlock_relock by done. f_equal.
  unfold bm25, contribution. cbn [idf avgdl set_lock]. ring.
Qed.

Lemma score_locked st q i k1 b : lock st = true -> score q i k1 b st = Blocked.
Proof. intros Hl. unfold score, with_lock. by rewrite Hl. Qed.

Lemma score_out_of_range st q i k1 b :
  lock st = false -> docs st !! i = None ->
  score q i k1 b st = Raised IndexError st.
Proof.
  intros Hl Hd. unfold score, with_lock. rewrite Hl.
  unfold bind, get. cbn [docs tf set_lock]. rewrite Hd.
  unfold raise. by rewrite unlock_relock.
Qed.

End ScoreFacts.

(* ===================================================================== *)
(** ** Scoring against a built index *)
(* ===================================================================== *)

Lemma sum_list_elem (l : list nat) (n : nat) :
  n ∈ l -> n <= sum_list l.
Proof.
  induction l as [|a l IH]; intros Hin; [by apply elem_of_nil in Hin|].
  apply elem_of_cons in Hin as [->|Hin]; cbn; [lia|].
  specialize (IH Hin). lia.
Qed.

(** A document whose table holds a term has at least one token, so the
    token counts of the snapshot add up to at least one. *)
Lemma term_found_lengths fs i d freq t :
  docs (built fs) !! i = Some d -> tf (built fs) !! i = Some freq ->
  is_Some (freq !! t) ->
  1 <= d_len d /\ 1 <= sum_list (map d_len (docs (built fs))).
Proof.
  intros Hd Hf Ht. rewrite built_docs_eq in *. rewrite built_tf_eq in Hf.
  destruct (built_docs_tf _ _ _ _ Hd) as (f & Hin & Htf & Hlen).
  assert (freq = file_freq f) as -> by congruence.
  apply count_tokens_is_Some in Ht.
  assert (1 <= d_len d) as Hpos.
  { rewrite Hlen. destruct (tokenize (file_to_text f)); cbn; [|lia].
    by apply elem_of_nil in Ht. }
  split; [done|].
  etrans; [exact Hpos|]. apply sum_list_elem.
  apply list_elem_of_fmap. exists d. split; [done|].
  by eapply list_elem_of_lookup_2.
Qed.

Lemma doc_count_pos (ds : list Doc) : 1 <= doc_count ds.
Proof. unfold doc_count. destruct (length ds); lia. Qed.

Lemma term_found_avgdl fs i d freq t :
  docs (built fs) !! i = Some d -> tf (built fs) !! i = Some freq ->
  is_Some (freq !! t) -> (0 < avgdl (built fs))%R.
Proof.
  intros Hd Hf Ht.
  destruct (term_found_lengths _ _ _ _ _ Hd Hf Ht) as [_ Hsum].
  rewrite built_avgdl_eq. rewrite built_docs_eq in Hsum.
  apply Rdiv_lt_0_compat; apply lt_0_INR; [lia|].
  pose proof (doc_count_pos (built_docs 0 fs)). lia.
Qed.

Lemma built_tf_lookup fs i d :
  docs (built fs) !! i = Some d -> is_Some (tf (built fs) !! i).
Proof.
  intros Hd. apply lookup_lt_is_Some.
  rewrite built_tf_eq, <- (built_docs_length fs 0), <- built_docs_eq.
  by eapply lookup_lt_Some.
Qed.

(** On a built index [score] returns the BM25 sum, whatever the query. *)
Lemma score_built fs q i d freq :
  docs (built fs) !! i = Some d -> tf (built fs) !! i = Some freq ->
  score q i K1 B (built fs)
  = Returned (bm25 (built fs) d freq K1 B q) (built fs).
Proof.
  intros Hd Hf. apply score_spec; try done.
  intros (t & _ & Ht). by eapply term_found_avgdl.
Qed.

Lemma bm25_no_match st d freq k1 b q :
  (forall t, t ∈ q -> freq !! t = None) -> bm25 st d freq k1 b q = 0%R.
Proof.
  intros Hnone. unfold bm25, present.
  assert (filter (fun t => is_Some (freq !! t)) q = []) as ->; [|done].
  induction q as [|t q IH]; [done|].
  rewrite filter_cons_False.
  - apply IH. intros t' Hin. apply Hnone. by right.
  - rewrite Hnone by (by left). by intros [? ?].
Qed.

Section ScoreSign.
Local Open Scope R_scope.

Lemma Rsum_nonneg (l : list R) : Forall (fun x => 0 <= x) l -> 0 <= Rsum l.
Proof. induction 1; cbn; lra. Qed.

Lemma bm25_term_nonneg idfv tfv dl avg :
  0 <= idfv -> 0 < avg -> 0 <= bm25_term idfv tfv dl avg K1 B.
Proof.
  intros Hi Ha. unfold bm25_term, Rdiv. pose proof (pos_INR tfv).
  apply Rmult_le_pos.
  - apply Rmult_le_pos; [apply Rmult_le_pos; lra|unfold K1; lra].
  - left. apply Rinv_0_lt_compat. by apply denom_pos.
Qed.

(** The sum is non-negative as soon as the stored [idf] values of the
    matching terms are. *)
Lemma bm25_nonneg st d freq q :
  0 < avgdl st ->
  (forall t, t ∈ q -> is_Some (freq !! t) -> 0 <= default 0 (idf st !! t)) ->
  0 <= bm25 st d freq K1 B q.
Proof.
  intros Ha Hidf. unfold bm25. apply Rsum_nonneg, Forall_forall.
  intros x (t & -> & Hin)%list_elem_of_fmap.
  apply list_elem_of_filter in Hin as [Hs Hin].
  unfold contribution. apply bm25_term_nonneg; [by apply Hidf|done].
Qed.

End ScoreSign.

(** After a pass that skipped no file every stored [idf] is
    non-negative, and so is every score. *)
Lemma idf_clean_nonneg fs t :
  Forall has_mtime fs -> (0 <= default 0 (idf (built fs) !! t))%R.
Proof.
  intros Hall. rewrite idf_lookup.
  destruct (df_clean_build fs t Hall) as [_ Hle].
  destruct (df (built fs) !! t) as [n|]; [|simpl; lra].
  change (n <= length (docs (built fs))) in Hle.
  change (0 <= idf_value (doc_count (docs (built fs))) n)%R.
  apply idf_value_nonneg. unfold doc_count.
  destruct (length (docs (built fs))); lia.
Qed.

Lemma score_clean_nonneg fs q i d freq :
  Forall has_mtime fs ->
  docs (built fs) !! i = Some d -> tf (built fs) !! i = Some freq ->
  (0 <= bm25 (built fs) d freq K1 B q)%R.
Proof.
  intros Hall Hd Hf.
  destruct (decide (Exists (fun t => is_Some (freq !! t)) q)) as [Hex|Hno].
  - apply Exists_exists in Hex as (t & Hin & Ht).
    apply bm25_nonneg; [by eapply term_found_avgdl|].
    intros. by apply idf_clean_nonneg.
  - rewrite bm25_no_match; [lra|].
    intros t Hin. destruct (freq !! t) eqn:E; [|done].
    destruct Hno. apply Exists_exists. exists t. rewrite E. eauto.
Qed.

(* ===================================================================== *)
(** ** Files that vanish between the read and [getmtime] *)
(* ===================================================================== *)

Lemma fs_race_doc :
  docs (built fs_race) !! 0
  = Some (mkDoc 1 (py "b.txt") (py "b.txt") (py "apple") 0 1).
Proof. vm_compute. reflexivity. Qed.

Lemma fs_race_tf :
  tf (built fs_race) !! 0 = Some {[ py "apple" := 1 ]}.
Proof. vm_compute. reflexivity. Qed.

Lemma fs_race_df : df (built fs_race) !! py "apple" = Some 2.
Proof. vm_compute. reflexivity. Qed.

Lemma fs_race_idf :
  idf (built fs_race) !! py "apple" = Some (idf_value 1 2).
Proof. rewrite idf_lookup, fs_race_df. reflexivity. Qed.

(** C1 (the code departs from it): [score] is specified to return a
    non-negative sum.  With [fs_race] on disk the build succeeds, the one
    document it indexes contains the query term [apple], and its score is
    negative: the skipped file was counted in [df], so [df = 2] exceeds
    the document count 1 and the stored [idf] is [ln 0.8]. *)
Theorem score_negative_after_skipped_file :
  init fs_race = Returned tt (built fs_race)
  /\ length (docs (built fs_race)) = 1
  /\ exists r : R,
       score [py "apple"] 0 K1 B (built fs_race)
       = Returned r (built fs_race)
       /\ (r < 0)%R.
Proof.
  split; [apply init_spec|]. split; [reflexivity|].
  eexists. split; [apply (score_built _ _ _ _ _ fs_race_doc fs_race_tf)|].
  unfold bm25.
  assert (present {[ py "apple" := 1 ]} [py "apple"] = [py "apple"]) as ->
    by (vm_compute; reflexivity).
  cbn [map Rsum]. unfold contribution. rewrite fs_race_idf.
  assert (({[ py "apple" := 1 ]} : gmap str nat) !! py "apple" = Some 1) as ->
    by (vm_compute; reflexivity).
  rewrite built_avgdl_eq.
  change (sum_list (map d_len (built_docs 0 fs_race))) with 1.
  change (doc_count (built_docs 0 fs_race)) with 1.
  change (default 0%R (Some (idf_value 1 2))) with (idf_value 1 2).
  change (default 0 (Some 1)) with 1.
  cbn [d_len Nat.max]. unfold bm25_term, K1, B. cbn [INR].
  pose proof (idf_value_neg 1 2 ltac:(lia)) as Hneg.
  replace (1 + 1.5 * (1 - 0.75 + 0.75 * 1 / (1 / 1)))%R with 2.5%R by lra.
  lra.
Qed.

(** C2 (the code departs from it): the stored [idf] of an indexed term is
    specified to be non-negative.  After the same build the snapshot has
    one document, [df(apple) = 2], and the stored value
    [ln((1 - 2 + 0.5) / (2 + 0.5) + 1)] is negative. *)
Theorem idf_negative_after_skipped_file :
  length (docs (built fs_race)) = 1
  /\ df (built fs_race) !! py "apple" = Some 2
  /\ idf (built fs_race) !! py "apple" = Some (idf_value 1 2)
  /\ (idf_value 1 2 < 0)%R.
Proof.
  split; [reflexivity|]. split; [apply fs_race_df|].
  split; [apply fs_race_idf|]. apply idf_value_neg. lia.
Qed.

(** C3 (the code departs from it): [df(t)] is specified to be the number
    of documents of the snapshot that contain [t].  With [fs_lost] on disk
    the snapshot is empty, no table contains [apple], and [df(apple)] is 1:
    the counter is bumped before [getmtime] raises and is not undone. *)
Theorem df_counts_skipped_file :
  init fs_lost = Returned tt (built fs_lost)
  /\ docs (built fs_lost) = []
  /\ containing (py "apple") (tf (built fs_lost)) = 0
  /\ df (built fs_lost) !! py "apple" = Some 1.
Proof.
  split; [apply init_spec|]. repeat split; vm_compute; reflexivity.
Qed.

(** C10: in [score] the division by [avgdl] never divides by zero.  In
    any index left by a build, a document whose table contains a term has
    at least one token, so the token counts add up to at least one and
    [avgdl] is positive; and [score] returns (the BM25 sum) for every
    query and every document of the index. *)
Theorem score_never_divides_by_zero (fs : list File) (st0 st : BM25Index)
    (q : list str) (i : nat) (d : Doc) (freq : gmap str nat) :
  lock st0 = false ->
  reindex fs st0 = Returned tt st ->
  docs st !! i = Some d ->
  tf st !! i = Some freq ->
  (forall t, is_Some (freq !! t) ->
     1 <= d_len d /\ 1 <= sum_list (map d_len (docs st))
     /\ (0 < avgdl st)%R)
  /\ score q i K1 B st = Returned (bm25 st d freq K1 B q) st.
Proof.
  intros Hl Hre Hd Hf. rewrite reindex_spec in Hre by done.
  injection Hre as <-. split.
  - intros t Ht. destruct (term_found_lengths _ _ _ _ _ Hd Hf Ht).
    repeat split; try done. by eapply term_found_avgdl.
  - by apply score_built.
Qed.

Lemma score_never_divides_by_zero_witness :
  (forall t, is_Some (({[ py "apple" := 1 ]} : gmap str nat) !! t) ->
     1 <= 1 /\ 1 <= sum_list (map d_len (docs (built fs_race)))
     /\ (0 < avgdl (built fs_race))%R)
  /\ score [py "apple"] 0 K1 B (built fs_race)
     = Returned (bm25 (built fs_race)
                      (mkDoc 1 (py "b.txt") (py "b.txt") (py "apple") 0 1)
                      {[ py "apple" := 1 ]} K1 B [py "apple"])
                (built fs_race).
Proof.
  apply (score_never_divides_by_zero fs_race blank (built fs_race)
           [py "apple"] 0
           (mkDoc 1 (py "b.txt") (py "b.txt") (py "apple") 0 1)
           {[ py "apple" := 1 ]}).
  - reflexivity.
  - reflexivity.
  - vm_compute; reflexivity.
  - vm_compute; reflexivity.
Defined.

(* ===================================================================== *)
(** ** What search does *)
(* ===================================================================== *)

Lemma maybe_reindex_spec fs st :
  lock st = false ->
  maybe_reindex fs st
  = Returned tt (if stale fs st then built fs else st).
Proof.
  intros Hl. unfold maybe_reindex. unfold bind at 1.
  unfold with_lock at 1. rewrite Hl. unfold bind at 1, get, ret at 1.
  rewrite unlock_relock by done.
  change (stale fs (set_lock true st)) with (stale fs st).
  destruct (stale fs st); [by apply reindex_spec|done].
Qed.

Lemma maybe_reindex_locked fs st :
  lock st = true -> maybe_reindex fs st = Blocked.
Proof.
  intros Hl. unfold maybe_reindex, bind, with_lock. by rewrite Hl.
Qed.

Lemma refreshed_lock fs st : lock st = false -> lock (refreshed fs st) = false.
Proof. intros Hl. unfold refreshed. by destruct (stale fs st). Qed.

(** Scoring the documents while the lock is held: the first call of
    [score] asks for the lock again. *)
Lemma score_all_locked q i d ds st :
  lock st = true -> score_all q i (d :: ds) st = Blocked.
Proof.
  intros Hl. cbn [score_all]. unfold bind at 1.
  by rewrite score_locked.
Qed.

Lemma slice_to_nil {A} (limit : Z) : slice_to limit (@nil A) = [].
Proof. unfold slice_to. destruct (0 <=? limit)%Z; by rewrite take_nil. Qed.

Lemma search_spec O fs query limit st :
  lock st = false ->
  search O fs query limit st
  = match tokenize query, docs (refreshed fs st) with
    | [], _ => Returned [] (refreshed fs st)
    | _ :: _, [] => Returned [] (refreshed fs st)
    | _ :: _, _ :: _ => Blocked
    end.
Proof.
  intros Hl. unfold search. unfold bind at 1.
  rewrite maybe_reindex_spec by done. fold (refreshed fs st).
  pose proof (refreshed_lock fs st Hl) as Hl'.
  destruct (tokenize query) as [|t q]; [done|].
  unfold bind at 1. unfold with_lock. rewrite Hl'.
  unfold bind at 1. unfold get at 1. cbn [docs set_lock].
  destruct (docs (refreshed fs st)) as [|d ds] eqn:Hd.
  - cbn [score_all]. unfold ret at 1. rewrite unlock_relock by done.
    cbn [sort_desc foldr]. rewrite slice_to_nil. done.
  - by rewrite score_all_locked.
Qed.

(** The tokenizer on text without letters and digits. *)
Lemma findall_from_no_token s : forall cur,
  Forall (fun c => is_token_char c = false) s ->
  findall_from cur s = match cur with [] => [] | _ => [cur] end.
Proof.
  induction s as [|c s IH]; intros cur Hs; [done|].
  apply Forall_cons in Hs as [Hc Hs]. cbn. rewrite Hc.
  destruct cur; by rewrite IH.
Qed.

Lemma tokenize_no_token s :
  Forall (fun c => is_token_char c = false) s -> tokenize s = [].
Proof.
  intros Hs. unfold tokenize, findall. by rewrite findall_from_no_token.
Qed.

Lemma is_space_not_token c : is_space c = true -> is_token_char c = false.
Proof.
  destruct c as [[] [] [] [] [] [] [] []]; vm_compute; congruence.
Qed.

Lemma tokenize_whitespace s :
  Forall (fun c => is_space c = true) s -> tokenize s = [].
Proof.
  intros Hs. apply tokenize_no_token.
  eapply Forall_impl; [exact Hs|]. apply is_space_not_token.
Qed.

(** C5: whatever the files on disk and the limit, [search] returns the
    empty list for a query that tokenizes to no term - in particular for
    the empty query and for a query made of white space only. *)
Theorem search_blank_query (O : SetOrder) (fs : list File) (limit : Z)
    (st : BM25Index) :
  lock st = false ->
  (forall query, tokenize query = [] ->
     search O fs query limit st = Returned [] (refreshed fs st))
  /\ search O fs (py "") limit st = Returned [] (refreshed fs st)
  /\ (forall query, Forall (fun c => is_space c = true) query ->
        search O fs query limit st = Returned [] (refreshed fs st)).
Proof.
  intros Hl.
  assert (forall query, tokenize query = [] ->
     search O fs query limit st = Returned [] (refreshed fs st)) as Hgen.
  { intros query Hq. rewrite search_spec by done. by rewrite Hq. }
  split; [done|]. split.
  - by apply Hgen.
  - intros query Hs. by apply Hgen, tokenize_whitespace.
Qed.

Lemma search_blank_query_witness :
  (forall query, tokenize query = [] ->
     search first_seen fs_race query 20 (built fs_race)
     = Returned [] (refreshed fs_race (built fs_race)))
  /\ search first_seen fs_race (py "") 20 (built fs_race)
     = Returned [] (refreshed fs_race (built fs_race))
  /\ (forall query, Forall (fun c => is_space c = true) query ->
        search first_seen fs_race query 20 (built fs_race)
        = Returned [] (refreshed fs_race (built fs_race))).
Proof.
  apply (search_blank_query first_seen fs_race 20 (built fs_race)).
  reflexivity.
Defined.

Lemma search_blocks O fs query limit st :
  lock st = false -> tokenize query <> [] -> docs (refreshed fs st) <> [] ->
  search O fs query limit st = Blocked.
Proof.
  intros Hl Hq Hd. rewrite search_spec by done.
  destruct (tokenize query); [done|]. by destruct (docs (refreshed fs st)).
Qed.





(* ===================================================================== *)
(** ** The lock *)
(* ===================================================================== *)

Lemma idf_value_pos (N d : nat) : d <= N -> (0 < idf_value N d)%R.
Proof.
  intros Hle. unfold idf_value. rewrite idf_arg_eq.
  assert (1 < (INR N + 1) / (INR d + 0.5))%R as Hgt.
  { apply le_INR in Hle. pose proof (INR_half_pos d).
    apply Rmult_lt_reg_r with (INR d + 0.5)%R; [done|].
    unfold Rdiv. rewrite Rmult_assoc, Rinv_l by lra. lra. }
  rewrite <- ln_1. apply ln_increasing; lra.
Qed.

(** C4 (the code departs from it): [search] is specified to return the
    documents with a positive score, best first.  With one file holding
    [apple] on disk and the index built from it, the document's score for
    the query [apple] is positive when [score] is called on its own, but
    [search] never returns: it calls [score] while holding the lock, and
    [score] starts by acquiring the same non re-entrant lock. *)
Theorem search_waits_for_its_own_lock :
  init fs_apple = Returned tt (built fs_apple)
  /\ (exists r : R,
        score [py "apple"] 0 K1 B (built fs_apple)
        = Returned r (built fs_apple) /\ (0 < r)%R)
  /\ forall O : SetOrder,
       search O fs_apple (py "apple") 20 (built fs_apple) = Blocked.
Proof.
  split; [apply init_spec|]. split.
  - assert (docs (built fs_apple) !! 0
            = Some (mkDoc 0 (py "a.txt") (py "a.txt") (py "apple") 0 1))
      as Hd by (vm_compute; reflexivity).
    assert (tf (built fs_apple) !! 0 = Some {[ py "apple" := 1 ]})
      as Hf by (vm_compute; reflexivity).
    eexists. split; [apply (score_built _ _ _ _ _ Hd Hf)|].
    unfold bm25.
    assert (present {[ py "apple" := 1 ]} [py "apple"] = [py "apple"]) as ->
      by (vm_compute; reflexivity).
    cbn [map Rsum]. unfold contribution. rewrite idf_lookup.
    assert (df (built fs_apple) !! py "apple" = Some 1) as ->
      by (vm_compute; reflexivity).
    assert (({[ py "apple" := 1 ]} : gmap str nat) !! py "apple" = Some 1)
      as -> by (vm_compute; reflexivity).
    rewrite built_avgdl_eq.
    change (sum_list (map d_len (built_docs 0 fs_apple))) with 1.
    change (doc_count (docs (built fs_apple))) with 1.
    change (doc_count (built_docs 0 fs_apple)) with 1.
    change (default 0%R (idf_value 1 <$> Some 1)) with (idf_value 1 1).
    change (default 0 (Some 1)) with 1.
    cbn [d_len Nat.max]. unfold bm25_term, K1, B. cbn [INR].
    pose proof (idf_value_pos 1 1 ltac:(lia)) as Hpos.
    replace (1 + 1.5 * (1 - 0.75 + 0.75 * 1 / (1 / 1)))%R with 2.5%R by lra.
    lra.
  - intros O. apply search_blocks; [done| |].
    + by vm_compute.
    + unfold refreshed. by destruct (stale fs_apple (built fs_apple)).
Qed.

(** C9 (the code departs from it): no operation is to block for ever.
    A query with a term, on an index that holds a document, run alone while
    the lock is free, never returns: [search] takes the lock and calls
    [score], which waits for the same lock.  The build that precedes the
    query returns and leaves the lock free. *)
Theorem search_can_block_forever :
  init fs_race = Returned tt (built fs_race)
  /\ lock (built fs_race) = false
  /\ forall O : SetOrder,
       search O fs_race (py "pie apple") 5 (built fs_race) = Blocked.
Proof.
  split; [apply init_spec|]. split; [done|].
  intros O. apply search_blocks; [done| |].
  - by vm_compute.
  - unfold refreshed. by destruct (stale fs_race (built fs_race)).
Qed.

(** A rebuild empties and refills the one index object in
    place while it holds the engine's lock, and releases the lock when it
    is done.  Started with the lock free it returns, and the index it
    leaves is determined by the files it scanned: nothing of the previous
    index remains.  A rebuild, a staleness check or a [score] call that
    starts while the lock is held waits for it. *)
Lemma rebuild_in_place_under_lock (fs : list File) (st held : BM25Index) :
  lock st = false -> lock held = true ->
  (reindex fs st = Returned tt (built fs) /\ lock (built fs) = false)
  /\ reindex fs held = Blocked
  /\ maybe_reindex fs held = Blocked
  /\ (forall q i k1 b, score q i k1 b held = Blocked).
Proof.
  intros Hfree Hheld. split; [split; [by apply reindex_spec|done]|].
  split; [by apply reindex_locked|].
  split; [by apply maybe_reindex_locked|].
  intros. by apply score_locked.
Qed.

Lemma rebuild_in_place_under_lock_example :
  (reindex fs_apple (built fs_race) = Returned tt (built fs_apple)
   /\ lock (built fs_apple) = false)
  /\ reindex fs_apple (set_lock true (built fs_race)) = Blocked
  /\ maybe_reindex fs_apple (set_lock true (built fs_race)) = Blocked
  /\ (forall q i k1 b,
        score q i k1 b (set_lock true (built fs_race)) = Blocked).
Proof.
  apply (rebuild_in_place_under_lock fs_apple (built fs_race)
           (set_lock true (built fs_race))); reflexivity.
Qed.

(* ===================================================================== *)
(** ** The snippet window *)
(* ===================================================================== *)

Lemma starts_with_true t : forall s,
  starts_with t s = true <-> exists post, s = t ++ post.
Proof.
  induction t as [|a t IH]; intros s; cbn.
  - split; [eauto|done].
  - destruct s as [|c s].
    + split; [done|]. by intros (post & Heq).
    + rewrite andb_true_iff, bool_decide_eq_true, IH. split.
      * intros [-> (post & ->)]. eauto.
      * intros (post & [= -> ->]). eauto.
Qed.

Lemma at_offset_0 t s : at_offset t 0 s <-> starts_with t s = true.
Proof.
  rewrite starts_with_true. split.
  - intros (pre & post & -> & Hlen). destruct pre; [|done]. eauto.
  - intros (post & ->). by exists [], post.
Qed.

Lemma at_offset_S t p c s : at_offset t (S p) (c :: s) <-> at_offset t p s.
Proof.
  split.
  - intros (pre & post & Heq & Hlen). destruct pre as [|c' pre]; [done|].
    injection Heq as -> ->. injection Hlen as <-. by exists pre, post.
  - intros (pre & post & -> & <-). by exists (c :: pre), post.
Qed.

Lemma at_offset_nil t p : at_offset t p [] -> p = 0.
Proof.
  intros (pre & post & Heq & <-). symmetry in Heq.
  apply app_eq_nil in Heq as [-> _]. done.
Qed.

Lemma find_Some t s : forall p,
  find t s = Some p ->
  at_offset t p s /\ forall p', at_offset t p' s -> p <= p'.
Proof.
  induction s as [|c s IH]; intros p; cbn [find].
  - destruct (starts_with t []) eqn:Hs; [|done]. intros [= <-].
    split; [by apply at_offset_0|lia].
  - destruct (starts_with t (c :: s)) eqn:Hs.
    + intros [= <-]. split; [by apply at_offset_0|lia].
    + destruct (find t s) as [p0|] eqn:Hf; [|done]. cbn. intros [= <-].
      destruct (IH p0 eq_refl) as [Hat Hleast]. split.
      * by apply at_offset_S.
      * intros [|p'] Hp'.
        -- apply at_offset_0 in Hp'. congruence.
        -- apply at_offset_S in Hp'. apply Hleast in Hp'. lia.
Qed.

Lemma find_None t s : find t s = None -> forall p, ~ at_offset t p s.
Proof.
  induction s as [|c s IH]; cbn [find].
  - destruct (starts_with t []) eqn:Hs; [done|]. intros _ p Hp.
    pose proof (at_offset_nil _ _ Hp) as ->.
    apply at_offset_0 in Hp. congruence.
  - destruct (starts_with t (c :: s)) eqn:Hs; [done|].
    destruct (find t s) eqn:Hf; [done|]. intros _ [|p] Hp.
    + apply at_offset_0 in Hp. congruence.
    + apply at_offset_S in Hp. by eapply IH.
Qed.

Lemma ci_occurs_lower t p text :
  lower_case t ->
  ci_occurs_at t p text <-> at_offset t p (lower text).
Proof.
  unfold lower_case. intros Hlc. rewrite <- Hlc at 2.
  unfold ci_occurs_at, at_offset, lower. split.
  - intros (pre & occ & post & -> & <- & <-).
    exists (map lower_char pre), (map lower_char post).
    by rewrite !map_app, length_map.
  - intros (pre & post & Heq & <-).
    exists (take (length pre) text),
           (take (length t) (drop (length pre) text)),
           (drop (length t) (drop (length pre) text)).
    assert (length pre + length t <= length text) as Hlen.
    { rewrite <- (length_map lower_char text), Heq, !length_app, length_map.
      lia. }
    rewrite take_drop, take_drop. split; [done|].
    split; [by rewrite length_take_le by lia|].
    rewrite <- firstn_map, <- skipn_map, Heq.
    rewrite drop_app_length.
    replace (length t) with (length (map lower_char t))
      by apply length_map.
    by rewrite take_app_length.
Qed.

Lemma min_list_spec (l : list nat) :
  l <> [] -> min_list l ∈ l /\ forall x, x ∈ l -> min_list l <= x.
Proof.
  destruct l as [|p ps]; [done|]. intros _. cbn [min_list].
  revert p. induction ps as [|q ps IH]; intros p; cbn [foldl].
  - split; [by left|]. intros x ?%list_elem_of_singleton. lia.
  - destruct (IH (Nat.min p q)) as [Hin Hle]. split.
    + apply elem_of_cons in Hin as [Heq|Hin].
      * rewrite Heq. destruct (Nat.min_spec p q) as [[_ ->]|[_ ->]].
        -- by left.
        -- right. by left.
      * right. by right.
    + intros x Hx.
      assert (Nat.min p q <= x \/ x ∈ ps) as [?|Hps].
      { apply elem_of_cons in Hx as [->|Hx]; [left; lia|].
        apply elem_of_cons in Hx as [->|Hx]; [left; lia|by right]. }
      * etrans; [apply Hle; by left|done].
      * apply Hle. by right.
Qed.

(** [first_hit_span] is the least offset at which a term occurs in the
    lower-cased text, and 0 when none does. *)
Lemma first_hit_span_none text terms :
  Forall lower_case terms ->
  (forall t p, t ∈ terms -> ~ ci_occurs_at t p text) ->
  first_hit_span text terms = 0.
Proof.
  intros Hlc Hno. unfold first_hit_span.
  assert (omap (fun t => find t (lower text)) terms = []) as ->; [|done].
  induction Hlc as [|t terms Ht _ IH]; [done|]. cbn.
  destruct (find t (lower text)) as [p|] eqn:Hf.
  - apply find_Some in Hf as [Hat _]. apply (ci_occurs_lower _ _ _ Ht) in Hat.
    destruct (Hno t p); [by left|done].
  - apply IH. intros t' p Hin. apply Hno. by right.
Qed.

Lemma first_hit_span_least text terms :
  Forall lower_case terms ->
  (exists t p, t ∈ terms /\ ci_occurs_at t p text) ->
  (exists t, t ∈ terms /\ ci_occurs_at t (first_hit_span text terms) text)
  /\ forall t p, t ∈ terms -> ci_occurs_at t p text ->
       first_hit_span text terms <= p.
Proof.
  intros Hlc (t0 & p0 & Hin0 & Hocc0). rewrite Forall_forall in Hlc.
  unfold first_hit_span.
  set (positions := omap (fun t => find t (lower text)) terms).
  assert (forall t p, t ∈ terms -> ci_occurs_at t p text ->
            exists p', p' ∈ positions /\ p' <= p) as Hcover.
  { intros t p Hin Hocc. apply (ci_occurs_lower _ _ _ (Hlc t Hin)) in Hocc.
    destruct (find t (lower text)) as [p'|] eqn:Hf.
    - exists p'. split.
      + apply list_elem_of_omap. eauto.
      + apply find_Some in Hf as [_ Hleast]. by apply Hleast.
    - by destruct (find_None _ _ Hf p). }
  assert (positions <> []) as Hne.
  { destruct (Hcover t0 p0 Hin0 Hocc0) as (p' & Hp' & _).
    intros Heq. rewrite Heq in Hp'. by apply elem_of_nil in Hp'. }
  destruct (min_list_spec positions Hne) as [Hmin Hle]. split.
  - apply list_elem_of_omap in Hmin as (t & Hin & Hf). exists t.
    split; [done|]. apply (ci_occurs_lower _ _ _ (Hlc t Hin)).
    by apply find_Some in Hf as [? _].
  - intros t p Hin Hocc. destruct (Hcover t p Hin Hocc) as (p' & Hp' & Hpp).
    etrans; [by apply Hle|done].
Qed.

Lemma at_offset_le t p s : at_offset t p s -> p <= length s.
Proof. intros (pre & post & -> & <-). rewrite length_app. lia. Qed.

Lemma first_hit_span_le text terms :
  first_hit_span text terms <= length text.
Proof.
  unfold first_hit_span.
  set (positions := omap (fun t => find t (lower text)) terms).
  destruct (decide (positions = [])) as [->|Hne]; [cbn; lia|].
  destruct (min_list_spec positions Hne) as [Hmin _].
  apply list_elem_of_omap in Hmin as (t & _ & Hf).
  apply find_Some in Hf as [Hat _]. apply at_offset_le in Hat.
  unfold lower in Hat. by rewrite length_map in Hat.
Qed.

Lemma build_results_snippets O q_terms hits : forall st rs st',
  build_results O q_terms hits st = Returned rs st' ->
  Forall (fun r => exists d, d ∈ docs st /\
            r_snippet r = make_snippet O (d_text d) q_terms 240) rs.
Proof.
  induction hits as [|[s i] hits IH]; intros st rs st'; cbn [build_results].
  - intros [= <- _]. constructor.
  - unfold bind at 1. unfold get at 1.
    destruct (docs st !! i) as [d|] eqn:Hd; [|done].
    unfold bind at 1.
    destruct (build_results O q_terms hits st) as [rest st1| |] eqn:Hb;
      [|done|done].
    unfold ret. intros [= <- _]. constructor.
    + exists d. split; [by eapply list_elem_of_lookup_2|done].
    + by eapply IH.
Qed.

(** On a text over code points below 256 and for lower-case terms (what
    [tokenize] returns), the window of a snippet is anchored at the
    earliest case-insensitive occurrence of a term in the text (offset 0
    when none occurs); it starts a quarter of the width before that offset
    (at the beginning of the text when the offset is smaller), spans
    [width] characters or what is left of the text, and the output is the
    escaped and highlighted window with an ellipsis in front exactly when
    the window does not start at the beginning of the text and an ellipsis
    behind exactly when it stops before the end.  [search] asks for a
    width of 240. *)
Lemma snippet_window (O : SetOrder) (text : str) (terms : list str)
    (width : nat) :
  Forall lower_case terms ->
  let pos := first_hit_span text terms in
  let start := pos - width / 4 in
  let end_ := Nat.min (length text) (start + width) in
  let window := take (end_ - start) (drop start text) in
  ((forall t p, t ∈ terms -> ~ ci_occurs_at t p text) -> pos = 0)
  /\ ((exists t p, t ∈ terms /\ ci_occurs_at t p text) ->
        (exists t, t ∈ terms /\ ci_occurs_at t pos text)
        /\ forall t p, t ∈ terms -> ci_occurs_at t p text -> pos <= p)
  /\ pos <= length text
  /\ start <= pos /\ pos - start <= width / 4
  /\ (width / 4 <= pos -> pos - start = width / 4)
  /\ length window = Nat.min width (length text - start)
  /\ make_snippet O text terms width
     = (if decide (start = 0) then [] else ELLIPSIS)
       ++ of_str (highlight (highlight_order O terms) (html_escape window))
       ++ (if decide (start + length window = length text)
           then [] else ELLIPSIS)
  /\ forall q_terms hits st rs st',
       build_results O q_terms hits st = Returned rs st' ->
       Forall (fun r => exists d, d ∈ docs st /\
                 r_snippet r = make_snippet O (d_text d) q_terms 240) rs.
Proof.
  intros Hlc pos start end_ window.
  pose proof (first_hit_span_le text terms) as Hpos. fold pos in Hpos.
  assert (length window = Nat.min width (length text - start)) as Hwin.
  { unfold window, end_. rewrite length_take, length_drop. lia. }
  split; [by apply first_hit_span_none|].
  split; [by apply first_hit_span_least|].
  split; [done|]. split; [unfold start; lia|].
  split; [unfold start; lia|]. split; [unfold start; lia|].
  split; [done|]. split; [|apply build_results_snippets].
  unfold make_snippet. fold pos. rewrite Nat.max_0_l. fold start end_ window.
  f_equal; [|f_equal].
  - destruct (decide (start = 0)) as [->|Hne]; [done|].
    destruct (Nat.ltb_spec 0 start); [done|lia].
  - rewrite Hwin.
    destruct (decide (start + Nat.min width (length text - start)
                      = length text)) as [Heq|Hne];
      destruct (Nat.ltb_spec end_ (length text)) as [Hlt|Hge];
      try done; unfold end_, start in *; lia.
Qed.

Lemma snippet_window_example :
  (exists t, t ∈ [py "day"; py "apple"]
     /\ ci_occurs_at t (first_hit_span (py "An Apple a day")
                                       [py "day"; py "apple"])
                     (py "An Apple a day"))
  /\ first_hit_span (py "An Apple a day") [py "day"; py "apple"] = 3.
Proof.
  split; [|reflexivity].
  apply (snippet_window first_seen (py "An Apple a day")
           [py "day"; py "apple"] 8).
  - by repeat constructor.
  - exists (py "apple"), 3. split; [right; left|].
    exists (py "An "), (py "Apple"), (py " a day"). done.
Qed.

(** The wider alphabet agrees with the narrow one on texts over code
    points below 256. *)
Lemma wide_lower (s : str) : Wide.lower (Wide.widen s) = Wide.widen (lower s).
Proof.
  induction s as [|c s IH]; [done|].
  change (Wide.lower (Wide.widen (c :: s)))
    with (Wide.Latin (lower_char c) :: Wide.lower (Wide.widen s)).
  by rewrite IH.
Qed.

Lemma wide_starts_with (t : str) : forall s : str,
  Wide.starts_with (Wide.widen t) (Wide.widen s) = starts_with t s.
Proof.
  induction t as [|a t IH]; intros [|c s]; try done.
  change (Wide.starts_with (Wide.widen (a :: t)) (Wide.widen (c :: s)))
    with (bool_decide (a = c)
          && Wide.starts_with (Wide.widen t) (Wide.widen s)).
  by rewrite IH.
Qed.

Lemma wide_find (t s : str) :
  Wide.find (Wide.widen t) (Wide.widen s) = find t s.
Proof.
  induction s as [|c s IH].
  - change (Wide.find (Wide.widen t) (Wide.widen []))
      with (if Wide.starts_with (Wide.widen t) (Wide.widen [])
            then Some 0 else None).
    by rewrite wide_starts_with.
  - change (Wide.find (Wide.widen t) (Wide.widen (c :: s)))
      with (if Wide.starts_with (Wide.widen t) (Wide.widen (c :: s))
            then Some 0 else S <$> Wide.find (Wide.widen t) (Wide.widen s)).
    by rewrite wide_starts_with, IH.
Qed.

Lemma wide_first_hit_span (text : str) (terms : list str) :
  Wide.first_hit_span (Wide.widen text) (map Wide.widen terms)
  = first_hit_span text terms.
Proof.
  unfold Wide.first_hit_span, first_hit_span. rewrite wide_lower. f_equal.
  induction terms as [|t terms IH]; [done|].
  change (omap (fun t => Wide.find t (Wide.widen (lower text)))
               (map Wide.widen (t :: terms)))
    with (match Wide.find (Wide.widen t) (Wide.widen (lower text)) with
          | Some p =>
              p :: omap (fun t => Wide.find t (Wide.widen (lower text)))
                        (map Wide.widen terms)
          | None => omap (fun t => Wide.find t (Wide.widen (lower text)))
                         (map Wide.widen terms)
          end).
  rewrite wide_find, IH. done.
Qed.

(** [make_snippet] returns the window that [Wide.make_snippet_window]
    describes, escaped and highlighted, between the two ellipses. *)
Lemma wide_window (O : SetOrder) (text : str) (terms : list str)
    (width : nat) :
  exists chunk : str,
    Wide.w_chunk (Wide.make_snippet_window (Wide.widen text)
                    (map Wide.widen terms) width)
    = Wide.widen chunk
    /\ make_snippet O text terms width
       = (if Wide.w_prefix (Wide.make_snippet_window (Wide.widen text)
                              (map Wide.widen terms) width)
          then ELLIPSIS else [])
         ++ of_str (highlight (highlight_order O terms) (html_escape chunk))
         ++ (if Wide.w_suffix (Wide.make_snippet_window (Wide.widen text)
                                 (map Wide.widen terms) width)
             then ELLIPSIS else []).
Proof.
  unfold Wide.make_snippet_window, make_snippet.
  rewrite wide_first_hit_span. cbn [Wide.w_chunk Wide.w_prefix Wide.w_suffix].
  set (start := Nat.max 0 (first_hit_span text terms - width / 4)).
  assert (length (Wide.widen text) = length text) as ->
    by apply length_map.
  set (end_ := Nat.min (length text) (start + width)).
  exists (take (end_ - start) (drop start text)). split.
  - unfold Wide.widen. by rewrite skipn_map, firstn_map.
  - reflexivity.
Qed.

(** C7 (the code departs from it): the window is specified to start a
    quarter of its width before the earliest occurrence of a query term in
    the text.  [first_hit_span] searches the lower-cased text and returns
    the offset it finds there, and [make_snippet] uses it as an offset of
    the text itself; [lower] turns U+0130 into two characters, so every
    such character in front of the hit moves the offset by one.  With 62
    of them in front of [apple] the term starts at offset 62 of the text,
    [first_hit_span] returns 124, and the window of width 240 starts at
    64, inside the hit: it is [ple].  With 100 of them the offset
    returned, 200, lies beyond the end of the text (105 characters) and the
    window is empty. *)
Theorem snippet_window_misses_hit :
  (length (dotted_apple 62) = 67
   /\ take 5 (drop 62 (dotted_apple 62)) = Wide.widen (py "apple")
   /\ Wide.first_hit_span (dotted_apple 62) [Wide.widen (py "apple")] = 124
   /\ Wide.make_snippet_window (dotted_apple 62) [Wide.widen (py "apple")] 240
      = Wide.mkWindow 64 67 (Wide.widen (py "ple")) true false)
  /\ (length (dotted_apple 100) = 105
      /\ take 5 (drop 100 (dotted_apple 100)) = Wide.widen (py "apple")
      /\ Wide.first_hit_span (dotted_apple 100) [Wide.widen (py "apple")]
         = 200
      /\ Wide.make_snippet_window (dotted_apple 100)
           [Wide.widen (py "apple")] 240
         = Wide.mkWindow 140 105 [] true false).
Proof. vm_compute. repeat split. Qed.

(* ===================================================================== *)
(** ** Highlighting *)
(* ===================================================================== *)

Lemma token_char_lower c : is_token_char (lower_char c) = is_token_char c.
Proof. destruct c as [[] [] [] [] [] [] [] []]; vm_compute; reflexivity. Qed.

Lemma token_char_word c : is_token_char c = true -> is_word c = true.
Proof. unfold is_word. by intros ->. Qed.

Lemma ci_token_chars (t occ : str) :
  lower occ = lower t ->
  Forall (fun c => is_token_char c = true) t ->
  Forall (fun c => is_token_char c = true) occ.
Proof.
  revert occ. induction t as [|a t IH]; intros [|c occ] Heq Ht; try done.
  injection Heq as Hc Heq. apply Forall_cons in Ht as [Ha Ht].
  constructor; [|by apply IH].
  by rewrite <- token_char_lower, Hc, token_char_lower.
Qed.

Lemma lower_length (s t : str) : lower s = lower t -> length s = length t.
Proof.
  intros Heq. apply (f_equal length) in Heq.
  unfold lower in Heq. by rewrite !length_map in Heq.
Qed.

Lemma ci_starts_with_true t : forall s,
  ci_starts_with t s = true
  <-> length t <= length s /\ lower (take (length t) s) = lower t.
Proof.
  induction t as [|a t IH]; intros s; cbn [ci_starts_with length].
  - rewrite take_0. split; [intros _; split; [lia|done]|done].
  - destruct s as [|c s]; cbn [length take].
    + split; [done|]. intros [? _]. lia.
    + rewrite andb_true_iff, bool_decide_eq_true, IH.
      unfold lower. cbn [map]. split.
      * intros [Hc [Hlen Heq]]. split; [lia|]. by rewrite Hc, Heq.
      * intros [Hlen [= Hc Heq]]. split; [done|]. split; [lia|done].
Qed.

(** Every character of a list is a token character, so its last one is a
    word character. *)
Lemma last_token_word (s : str) :
  s <> [] -> Forall (fun c => is_token_char c = true) s ->
  is_word_opt (last s) = true.
Proof.
  intros Hne Hs. destruct (last s) as [c|] eqn:Hl.
  - cbn. apply token_char_word.
    apply last_Some in Hl as (s' & ->).
    apply Forall_app in Hs as [_ Hc]. by apply Forall_inv in Hc.
  - by apply last_None in Hl.
Qed.

Lemma head_token_word (s : str) :
  s <> [] -> Forall (fun c => is_token_char c = true) s ->
  is_word_opt (head s) = true.
Proof.
  intros Hne Hs. destruct s as [|c s]; [done|]. cbn.
  apply token_char_word. by apply Forall_cons in Hs as [? _].
Qed.

(** The substitution with enough fuel does not depend on the fuel. *)
Lemma sub_from_fuel t : t <> [] -> forall f1 f2 s prev,
  length s <= f1 -> length s <= f2 ->
  sub_from f1 t prev s = sub_from f2 t prev s.
Proof.
  intros Hne. induction f1 as [|f1 IH]; intros f2 s prev H1 H2.
  - destruct s; [|cbn in H1; lia]. by destruct f2.
  - destruct s as [|c s]; [by destruct f2|].
    destruct f2 as [|f2]; [cbn in H2; lia|]. cbn [sub_from].
    cbn [length] in H1, H2.
    assert (length (drop (length t) (c :: s)) <= length s) as Hd.
    { rewrite length_drop. destruct t; [done|]. cbn. lia. }
    destruct (match_here t prev (c :: s)).
    + do 3 f_equal. apply IH; lia.
    + f_equal. apply IH; lia.
Qed.

Lemma sub_nil t prev : sub t prev [] = [].
Proof. done. Qed.

Lemma sub_cons t prev c s :
  t <> [] ->
  sub t prev (c :: s)
  = if match_here t prev (c :: s)
    then MARK_OPEN ++ take (length t) (c :: s) ++ MARK_CLOSE
         ++ sub t (last (take (length t) (c :: s)))
                (drop (length t) (c :: s))
    else c :: sub t (Some c) s.
Proof.
  intros Hne. unfold sub. cbn [length sub_from].
  destruct (match_here t prev (c :: s)); [|done].
  do 3 f_equal. apply sub_from_fuel; [done| |done].
  rewrite length_drop. destruct t; [done|]. cbn. lia.
Qed.

Lemma re_sub_mark_sub t s : t <> [] -> re_sub_mark t s = sub t None s.
Proof. by destruct t. Qed.

Lemma before_nil prev : before prev [] = prev.
Proof. unfold before. rewrite app_nil_r. by destruct prev. Qed.

Lemma before_cons prev c pre : before prev (c :: pre) = before (Some c) pre.
Proof.
  unfold before. destruct prev as [a|]; [|done].
  change (last (a :: c :: pre) = last (c :: pre)). apply last_cons_cons.
Qed.

Lemma before_last prev pre : pre <> [] -> before prev pre = last pre.
Proof.
  intros Hne. unfold before. rewrite last_app.
  destruct (last pre) eqn:Hl; [done|]. by apply last_None in Hl.
Qed.

Lemma match_here_token t prev s :
  token t ->
  match_here t prev s = true
  <-> is_word_opt prev = false
      /\ ci_starts_with t s = true
      /\ is_word_opt (head (drop (length t) s)) = false.
Proof.
  intros [Hne Ht]. unfold match_here.
  destruct (ci_starts_with t s) eqn:Hci.
  2:{ rewrite andb_false_r. cbn. split; [done|]. by intros (_ & ? & _). }
  apply ci_starts_with_true in Hci as [Hlen Hlow].
  pose proof (ci_token_chars _ _ Hlow Ht) as Hocc.
  assert (take (length t) s <> []) as Hocc_ne.
  { intros Hnil. apply (f_equal length) in Hnil.
    rewrite length_take_le in Hnil by done. by destruct t. }
  assert (is_word_opt (head s) = true) as Hhead.
  { rewrite <- (head_token_word _ Hocc_ne Hocc).
    destruct t; [done|]. by destruct s. }
  assert (last (option_list prev ++ take (length t) s)
          = last (take (length t) s)) as ->.
  { rewrite last_app. destruct (last (take (length t) s)) eqn:Hl; [done|].
    by apply last_None in Hl. }
  unfold boundary. rewrite (last_token_word _ Hocc_ne Hocc), Hhead.
  destruct (is_word_opt prev), (is_word_opt (head (drop (length t) s)));
    cbn; split; try done; by intros (? & ? & ?).
Qed.

(** A match at the head of [pre ++ rest] cannot reach the last character
    of [pre] when that character is not a word character. *)
Lemma ci_match_inside t pre rest :
  token t -> pre <> [] -> is_word_opt (last pre) = false ->
  ci_starts_with t (pre ++ rest) = true ->
  length t < length pre.
Proof.
  intros [Hne Ht] Hpre Hlast Hci.
  apply ci_starts_with_true in Hci as [_ Hlow].
  pose proof (ci_token_chars _ _ Hlow Ht) as Hocc.
  destruct (decide (length t < length pre)) as [|Hge]; [done|].
  rewrite take_app_ge in Hocc by lia.
  apply Forall_app in Hocc as [Hocc _].
  rewrite (last_token_word pre Hpre Hocc) in Hlast. done.
Qed.

Lemma match_here_prefix t prev pre rest :
  token t -> pre <> [] -> is_word_opt (last pre) = false ->
  match_here t prev (pre ++ rest) = match_here t prev pre.
Proof.
  intros Htok Hpre Hlast.
  assert (forall s, ci_starts_with t s = true -> s = pre \/ s = pre ++ rest ->
            length t < length pre) as Hin.
  { intros s Hci [->| ->].
    - apply (ci_match_inside t pre []); try done. by rewrite app_nil_r.
    - by apply (ci_match_inside t pre rest). }
  apply eq_true_iff_eq. rewrite !match_here_token by done.
  split; intros (Hp & Hci & Hend).
  - pose proof (Hin _ Hci (or_intror eq_refl)) as Hlt.
    split; [done|]. split.
    + apply ci_starts_with_true. apply ci_starts_with_true in Hci as [_ Hlow].
      rewrite take_app_le in Hlow by lia. split; [lia|done].
    + rewrite drop_app_le in Hend by lia.
      destruct (drop (length t) pre) eqn:Hd; [|done].
      apply (f_equal length) in Hd. rewrite length_drop in Hd. cbn in Hd. lia.
  - pose proof (Hin _ Hci (or_introl eq_refl)) as Hlt.
    split; [done|]. split.
    + apply ci_starts_with_true. apply ci_starts_with_true in Hci as [_ Hlow].
      rewrite take_app_le by lia. rewrite length_app. split; [lia|done].
    + rewrite drop_app_le by lia.
      destruct (drop (length t) pre) eqn:Hd; [|done].
      apply (f_equal length) in Hd. rewrite length_drop in Hd. cbn in Hd. lia.
Qed.

Lemma last_drop_lt {A} (l : list A) (n : nat) :
  n < length l -> last (drop n l) = last l.
Proof.
  intros Hlt. rewrite <- (take_drop n l) at 2. rewrite last_app.
  destruct (last (drop n l)) eqn:Hl; [done|].
  apply last_None in Hl. apply (f_equal length) in Hl.
  rewrite length_drop in Hl. cbn in Hl. lia.
Qed.

(** One pass wraps an occurrence delimited by non-word characters, and
    treats what is in front of it and what follows it on their own. *)
Lemma sub_marks t :
  token t -> forall n pre prev occ post,
  length pre <= n ->
  lower occ = lower t ->
  is_word_opt (before prev pre) = false ->
  is_word_opt (head post) = false ->
  sub t prev (pre ++ occ ++ post)
  = sub t prev pre ++ MARK_OPEN ++ occ ++ MARK_CLOSE ++ sub t (last occ) post.
Proof.
  intros Htok. pose proof Htok as [Hne Ht].
  induction n as [|n IH]; intros pre prev occ post Hn Hlow Hbefore Hpost.
  - destruct pre; [|cbn in Hn; lia]. clear Hn. rewrite before_nil in Hbefore.
    rewrite sub_nil. cbn [app].
    pose proof (lower_length _ _ Hlow) as Hlen.
    destruct occ as [|c occ]; [by destruct t|].
    change ((c :: occ) ++ post) with (c :: (occ ++ post)).
    rewrite sub_cons by done.
    change (c :: (occ ++ post)) with ((c :: occ) ++ post).
    assert (match_here t prev ((c :: occ) ++ post) = true) as ->.
    { apply match_here_token; [done|]. split; [done|]. split.
      - apply ci_starts_with_true. rewrite length_app, <- Hlen.
        split; [lia|]. by rewrite take_app_length.
      - by rewrite <- Hlen, drop_app_length. }
    by rewrite <- Hlen, take_app_length, drop_app_length.
  - destruct pre as [|c pre].
    { apply (IH [] prev occ post); [cbn; lia|done..]. }
    cbn [length] in Hn.
    assert (is_word_opt (last (c :: pre)) = false) as Hlast
      by (by rewrite <- (before_last prev)).
    change ((c :: pre) ++ occ ++ post) with (c :: (pre ++ occ ++ post)).
    rewrite !sub_cons by done.
    change (c :: (pre ++ occ ++ post)) with ((c :: pre) ++ occ ++ post).
    rewrite (match_here_prefix t prev (c :: pre) (occ ++ post)) by done.
    destruct (match_here t prev (c :: pre)) eqn:Hm.
    + apply match_here_token in Hm as (_ & Hci & _); [|done].
      assert (length t < length (c :: pre)) as Hlt.
      { apply (ci_match_inside t (c :: pre) []); try done.
        by rewrite app_nil_r. }
      rewrite take_app_le, drop_app_le by lia.
      assert (drop (length t) (c :: pre) <> []) as Hd.
      { intros Hnil. apply (f_equal length) in Hnil.
        rewrite length_drop in Hnil. cbn in Hnil. cbn in Hlt. lia. }
      rewrite (IH (drop (length t) (c :: pre))).
      * by rewrite <- !app_assoc.
      * rewrite length_drop. destruct t; [done|]. cbn. lia.
      * done.
      * rewrite before_last by done. by rewrite last_drop_lt.
      * done.
    + rewrite (IH pre (Some c)); [done|lia|done| |done].
      by rewrite <- before_cons with (prev := prev).
Qed.

(** *** Escaping keeps occurrences and their delimiters *)

Lemma html_escape_app (a b : str) :
  html_escape (a ++ b) = html_escape a ++ html_escape b.
Proof. unfold html_escape. by rewrite map_app, concat_app. Qed.

Lemma escape_char_token c : is_token_char c = true -> escape_char c = [c].
Proof.
  destruct c as [[] [] [] [] [] [] [] []]; vm_compute; congruence.
Qed.

Lemma html_escape_token (s : str) :
  Forall (fun c => is_token_char c = true) s -> html_escape s = s.
Proof.
  induction 1 as [|c s Hc _ IH]; [done|].
  change (html_escape (c :: s)) with (escape_char c ++ html_escape s).
  by rewrite escape_char_token, IH.
Qed.

Lemma escape_char_ends c :
  is_word c = false ->
  is_word_opt (last (escape_char c)) = false
  /\ is_word_opt (head (escape_char c)) = false.
Proof.
  destruct c as [[] [] [] [] [] [] [] []]; vm_compute; try done; congruence.
Qed.

Lemma escape_char_length c : 1 <= length (escape_char c).
Proof.
  unfold escape_char. repeat case_match; cbn; lia.
Qed.

Lemma html_escape_length (s : str) : length s <= length (html_escape s).
Proof.
  induction s as [|c s IH]; [done|].
  change (html_escape (c :: s)) with (escape_char c ++ html_escape s).
  rewrite length_app. pose proof (escape_char_length c). cbn. lia.
Qed.

Lemma html_escape_last (s : str) :
  is_word_opt (last s) = false -> is_word_opt (last (html_escape s)) = false.
Proof.
  destruct (last s) as [c|] eqn:Hl.
  - apply last_Some in Hl as (s' & ->). cbn. intros Hc.
    rewrite html_escape_app. unfold html_escape at 2. cbn [map concat].
    rewrite app_nil_r, last_app.
    destruct (escape_char_ends c Hc) as [Hlast _].
    destruct (last (escape_char c)) eqn:He; [done|].
    apply last_None in He. pose proof (escape_char_length c) as Hlen.
    rewrite He in Hlen. cbn in Hlen. lia.
  - apply last_None in Hl as ->. done.
Qed.

Lemma html_escape_head (s : str) :
  is_word_opt (head s) = false -> is_word_opt (head (html_escape s)) = false.
Proof.
  destruct s as [|c s]; [done|]. cbn [head is_word_opt]. intros Hc.
  change (html_escape (c :: s)) with (escape_char c ++ html_escape s).
  destruct (escape_char_ends c Hc) as [_ Hhead].
  destruct (escape_char c) eqn:He; [|done].
  pose proof (escape_char_length c) as Hlen. rewrite He in Hlen.
  cbn in Hlen. lia.
Qed.

(** *** The order of the passes *)

Section SortFacts.
Context {A : Type} (key : A -> nat).

Lemma insert_desc_perm (x : A) (l : list A) :
  insert_desc key Nat.ltb x l ≡ₚ x :: l.
Proof.
  induction l as [|y l IH]; [reflexivity|]. cbn [insert_desc].
  destruct (key x <? key y); [|reflexivity].
  rewrite IH. apply perm_swap.
Qed.

Lemma sort_desc_perm (l : list A) : sort_desc key Nat.ltb l ≡ₚ l.
Proof.
  induction l as [|x l IH]; [reflexivity|].
  cbn [sort_desc foldr]. fold (sort_desc key Nat.ltb l).
  by rewrite insert_desc_perm, IH.
Qed.

Lemma insert_desc_sorted (x : A) (l : list A) :
  StronglySorted (fun a b => key b <= key a) l ->
  StronglySorted (fun a b => key b <= key a) (insert_desc key Nat.ltb x l).
Proof.
  induction 1 as [|y l Hs IH Hy]; cbn [insert_desc].
  - repeat constructor.
  - destruct (Nat.ltb_spec (key x) (key y)) as [Hlt|Hge].
    + constructor; [done|].
      rewrite insert_desc_perm. constructor; [lia|done].
    + constructor; [by constructor|].
      constructor; [done|].
      eapply Forall_impl; [exact Hy|]. cbn. intros z Hz. lia.
Qed.

Lemma sort_desc_sorted (l : list A) :
  StronglySorted (fun a b => key b <= key a) (sort_desc key Nat.ltb l).
Proof.
  induction l as [|x l IH]; [constructor|].
  cbn [sort_desc foldr]. by apply insert_desc_sorted.
Qed.

End SortFacts.

Lemma highlight_order_spec (O : SetOrder) (terms : list str) :
  StronglySorted (fun a b : str => length b <= length a)
                 (highlight_order O terms)
  /\ NoDup (highlight_order O terms)
  /\ forall t, t ∈ highlight_order O terms <-> t ∈ terms.
Proof.
  unfold highlight_order. split; [apply sort_desc_sorted|]. split.
  - rewrite sort_desc_perm. apply set_iter_NoDup.
  - intros t. rewrite sort_desc_perm. apply set_iter_elem.
Qed.

Lemma highlight_order_single (O : SetOrder) (t : str) :
  highlight_order O [t] = [t].
Proof.
  destruct (highlight_order_spec O [t]) as (_ & Hnd & Hel).
  destruct (highlight_order O [t]) as [|a l].
  - assert (t ∈ @nil str) as Hin by (apply Hel; by left).
    by apply elem_of_nil in Hin.
  - assert (a = t) as ->.
    { assert (a ∈ [t]) as Hin by (apply Hel; by left).
      by apply list_elem_of_singleton in Hin. }
    destruct l as [|b l]; [done|].
    assert (b = t) as ->.
    { assert (b ∈ [t]) as Hin by (apply Hel; right; by left).
      by apply list_elem_of_singleton in Hin. }
    apply NoDup_cons in Hnd as [Hnin _]. destruct Hnin. by left.
Qed.

(** The snippet can be longer than the window length plus two ellipsis
    markers.  A text of sixty ampersands fits the 240-character window,
    and each ampersand is escaped into five characters. *)
Lemma snippet_longer_than_window :
  length (make_snippet first_seen (replicate 60 "&"%char) [py "apple"] 240)
  = 300
  /\ 240 + 2 < 300.
Proof. split; [vm_compute; reflexivity|lia]. Qed.

(** The window cut from the text is at most [width]
    characters long, and the snippet is that window, escaped and
    highlighted, with at most one ellipsis on each side (escaping never
    shortens it, so the snippet can exceed the width by what escaping and
    the marks add).  The terms are highlighted one pass per distinct term,
    longer terms before shorter ones.  The pass for a term wraps in
    [<mark>..</mark>] every occurrence of it, letter case apart, that is
    delimited by non-word characters in the string the pass receives; the
    first pass receives the escaped window, where the occurrences of the
    window and their delimiters are intact; a query of one term has that
    single pass. *)
Lemma snippet_marks_each_pass (O : SetOrder) (text : str)
    (terms : list str) (width : nat) :
  let pos := first_hit_span text terms in
  let start := pos - width / 4 in
  let end_ := Nat.min (length text) (start + width) in
  let window := take (end_ - start) (drop start text) in
  let body := highlight (highlight_order O terms) (html_escape window) in
  length window <= width
  /\ (exists prefix suffix,
        make_snippet O text terms width = prefix ++ of_str body ++ suffix
        /\ length prefix <= 1 /\ length suffix <= 1)
  /\ length window <= length (html_escape window)
  /\ (StronglySorted (fun a b : str => length b <= length a)
                     (highlight_order O terms)
      /\ NoDup (highlight_order O terms)
      /\ forall t, t ∈ highlight_order O terms <-> t ∈ terms)
  /\ (forall t pre occ post,
        token t -> lower occ = lower t ->
        is_word_opt (last pre) = false -> is_word_opt (head post) = false ->
        re_sub_mark t (pre ++ occ ++ post)
        = re_sub_mark t pre ++ MARK_OPEN ++ occ ++ MARK_CLOSE
          ++ sub t (last occ) post)
  /\ (forall t pre occ post,
        token t -> lower occ = lower t ->
        is_word_opt (last pre) = false -> is_word_opt (head post) = false ->
        window = pre ++ occ ++ post ->
        re_sub_mark t (html_escape window)
        = re_sub_mark t (html_escape pre) ++ MARK_OPEN ++ occ ++ MARK_CLOSE
          ++ sub t (last occ) (html_escape post))
  /\ (forall t, terms = [t] -> body = re_sub_mark t (html_escape window)).
Proof.
  intros pos start end_ window body.
  assert (forall t pre occ post,
        token t -> lower occ = lower t ->
        is_word_opt (last pre) = false -> is_word_opt (head post) = false ->
        re_sub_mark t (pre ++ occ ++ post)
        = re_sub_mark t pre ++ MARK_OPEN ++ occ ++ MARK_CLOSE
          ++ sub t (last occ) post) as Hpass.
  { intros t pre occ post Htok Hlow Hpre Hpost.
    pose proof Htok as [Hne _]. rewrite !re_sub_mark_sub by done.
    by apply (sub_marks t Htok (length pre)). }
  split; [|split; [|split; [|split; [|split; [|split]]]]].
  - unfold window, end_. rewrite length_take, length_drop. lia.
  - exists (if (0 <? Nat.max 0 start) then ELLIPSIS else []),
           (if (Nat.min (length text) (Nat.max 0 start + width)
                <? length text) then ELLIPSIS else []).
    split; [reflexivity|]. split; case_match; cbn; lia.
  - apply html_escape_length.
  - apply highlight_order_spec.
  - exact Hpass.
  - intros t pre occ post Htok Hlow Hpre Hpost ->.
    pose proof Htok as [_ Ht].
    rewrite !html_escape_app.
    rewrite (html_escape_token occ) by (by eapply ci_token_chars).
    apply Hpass; try done.
    + by apply html_escape_last.
    + by apply html_escape_head.
  - intros t ->. unfold body. by rewrite highlight_order_single.
Qed.

(** The marks of an earlier pass are themselves text for the later
    passes: with the terms [bookmark] and [mark], the pass for [mark]
    rewrites the tags that the pass for [bookmark] inserted. *)
Lemma later_pass_hits_markup :
  string_of_list_ascii
    (highlight (highlight_order first_seen [py "bookmark"; py "mark"])
               (html_escape (py "my bookmark")))
  = "my <<mark>mark</mark>>bookmark</<mark>mark</mark>>"%string.
Proof. vm_compute. reflexivity. Qed.

(** Entities written by the escaping are text for the passes as well. *)
Lemma pass_hits_entity :
  string_of_list_ascii
    (highlight (highlight_order first_seen [py "amp"])
               (html_escape (py "R&D")))
  = "R&<mark>amp</mark>;D"%string.
Proof. vm_compute. reflexivity. Qed.

Lemma highlight_order_pair (O : SetOrder) (a b : str) :
  length b < length a -> highlight_order O [a; b] = [a; b].
Proof.
  intros Hlen.
  assert (a <> b) as Hab by (intros ->; lia).
  destruct (highlight_order_spec O [a; b]) as (Hsort & Hnd & Hel).
  assert (forall x, x ∈ highlight_order O [a; b] -> x = a \/ x = b) as Hin.
  { intros x Hx. apply Hel in Hx.
    apply elem_of_cons in Hx as [->|Hx]; [by left|].
    apply list_elem_of_singleton in Hx as ->. by right. }
  assert (a ∈ highlight_order O [a; b]) as Ha by (apply Hel; by left).
  assert (b ∈ highlight_order O [a; b]) as Hb
    by (apply Hel; right; by left).
  destruct (highlight_order O [a; b]) as [|x [|y l]].
  - by apply elem_of_nil in Ha.
  - apply list_elem_of_singleton in Ha, Hb. congruence.
  - apply NoDup_cons in Hnd as [Hx Hnd]. apply NoDup_cons in Hnd as [Hy _].
    assert (x <> y) as Hxy by (intros ->; apply Hx; by left).
    destruct l as [|z l].
    + apply StronglySorted_inv in Hsort as [_ Hall].
      apply Forall_cons in Hall as [Hle _].
      destruct (Hin x ltac:(by left)) as [->| ->];
        destruct (Hin y ltac:(right; by left)) as [->| ->];
        try done. lia.
    + exfalso.
      assert (z <> x) as Hzx by (intros ->; apply Hx; right; by left).
      assert (z <> y) as Hzy by (intros ->; apply Hy; by left).
      destruct (Hin x ltac:(by left)) as [->| ->];
        destruct (Hin y ltac:(right; by left)) as [->| ->];
        destruct (Hin z ltac:(right; right; by left)) as [->| ->];
        done.
Qed.

(** A token that stands next to an underscore is not marked: the
    tokenizer ends a token at the underscore, the pattern of the pass
    ([\b]) counts the underscore as a word character. *)
Lemma token_next_to_underscore_not_marked :
  tokenize (py "foo_bar") = [py "foo"; py "bar"]
  /\ forall O : SetOrder,
       make_snippet O (py "foo_bar") [py "foo"] 240 = of_str (py "foo_bar").
Proof.
  split; [vm_compute; reflexivity|]. intros O.
  unfold make_snippet. rewrite highlight_order_single.
  vm_compute. reflexivity.
Qed.

(** C8 (the code departs from it): longer terms are highlighted before
    shorter ones so that the highlight of a longer term is not overwritten
    by the marker of a shorter term it contains.  The passes run one after
    the other over the same string, and the tags written by a pass are text
    for the next: with the terms [bookmark] and [mark], whatever the order
    in which the set of terms is iterated, the pass for [mark] rewrites the
    two tags written around [bookmark]. *)
Theorem shorter_term_rewrites_longer_mark :
  forall O : SetOrder,
    highlight_order O [py "bookmark"; py "mark"] = [py "bookmark"; py "mark"]
    /\ make_snippet O (py "my bookmark") [py "bookmark"; py "mark"] 240
       = of_str (py "my <<mark>mark</mark>>bookmark</<mark>mark</mark>>").
Proof.
  intros O.
  assert (highlight_order O [py "bookmark"; py "mark"]
          = [py "bookmark"; py "mark"]) as Hord
    by (apply highlight_order_pair; cbn; lia).
  split; [done|]. unfold make_snippet. rewrite Hord.
  vm_compute. reflexivity.
Qed.

(* ===================================================================== *)
(** * Further properties of the code *)
(* ===================================================================== *)


(* ===================================================================== *)
(** ** The tokenizer *)
(* ===================================================================== *)

Lemma lower_char_token c :
  is_token_char c = true ->
  is_lower (lower_char c) || is_digit (lower_char c) = true.
Proof.
  destruct c as [[] [] [] [] [] [] [] []]; vm_compute; congruence.
Qed.

Lemma lower_char_idem c : lower_char (lower_char c) = lower_char c.
Proof. destruct c as [[] [] [] [] [] [] [] []]; vm_compute; reflexivity. Qed.

Lemma lower_idem (s : str) : lower (lower s) = lower s.
Proof.
  unfold lower. rewrite map_map. apply map_ext. apply lower_char_idem.
Qed.

(** The runs returned by [findall] are non-empty and made of token
    characters. *)
Lemma findall_from_runs s : forall cur,
  Forall (fun c => is_token_char c = true) cur ->
  Forall (fun t : str => t <> [] /\ Forall (fun c => is_token_char c = true) t)
         (findall_from cur s).
Proof.
  induction s as [|c s IH]; intros cur Hcur; cbn [findall_from].
  - destruct cur; constructor; [|constructor]. by split.
  - destruct (is_token_char c) eqn:Hc.
    + apply IH. apply Forall_app. split; [done|]. by repeat constructor.
    + destruct cur as [|a cur].
      * apply IH. constructor.
      * constructor; [by split|]. apply IH. constructor.
Qed.

Lemma tokenize_lower_alnum (text : str) :
  Forall (fun t : str =>
            t <> []
            /\ Forall (fun c => is_lower c || is_digit c = true) t
            /\ lower t = t)
         (tokenize text).
Proof.
  unfold tokenize, findall. apply Forall_forall.
  intros t (r & -> & Hin)%list_elem_of_fmap.
  pose proof (findall_from_runs text [] ltac:(constructor)) as Hruns.
  rewrite Forall_forall in Hruns. destruct (Hruns r Hin) as [Hne Hr].
  split; [by destruct r|]. split; [|apply lower_idem].
  unfold lower. apply Forall_fmap. eapply Forall_impl; [exact Hr|].
  intros c Hc. by apply lower_char_token.
Qed.

Lemma lower_alnum_token (t : str) :
  t <> [] -> Forall (fun c => is_lower c || is_digit c = true) t -> token t.
Proof.
  intros Hne Hl. split; [done|]. eapply Forall_impl; [exact Hl|].
  intros c Hc. unfold is_token_char.
  apply orb_true_iff in Hc as [-> | ->]; by rewrite !orb_true_r.
Qed.

(** X1: every token that [tokenize] returns is non-empty, consists of
    lower-case ASCII letters and digits only, and is left unchanged by
    [lower]. *)
Theorem tokens_well_formed (text : str) :
  Forall (fun t : str =>
            t <> []
            /\ Forall (fun c => is_lower c || is_digit c = true) t
            /\ lower t = t
            /\ token t)
         (tokenize text).
Proof.
  eapply Forall_impl; [apply tokenize_lower_alnum|].
  intros t (Hne & Hl & Hlow).
  split; [done|]. split; [done|]. split; [done|].
  by apply lower_alnum_token.
Qed.

Lemma findall_from_lower s : forall cur,
  findall_from (lower cur) (lower s) = map lower (findall_from cur s).
Proof.
  induction s as [|c s IH]; intros cur; cbn [findall_from lower map].
  - by destruct cur.
  - rewrite token_char_lower. destruct (is_token_char c).
    + rewrite <- IH. unfold lower. by rewrite map_app.
    + destruct cur as [|a cur]; cbn [lower map].
      * apply (IH []).
      * f_equal. apply (IH []).
Qed.

(** X2: tokenizing does not depend on letter case: the lower-cased text
    has the same tokens as the text. *)
Theorem tokenize_lower (text : str) :
  tokenize (lower text) = tokenize text.
Proof.
  unfold tokenize, findall.
  change (findall_from [] (lower text))
    with (findall_from (lower []) (lower text)).
  rewrite findall_from_lower, map_map. apply map_ext. apply lower_idem.
Qed.

Lemma findall_from_split a c b : forall cur,
  is_token_char c = false ->
  findall_from cur (a ++ c :: b) = findall_from cur a ++ findall b.
Proof.
  revert b. induction a as [|x a IH]; intros b cur Hc; cbn [app findall_from].
  - rewrite Hc. by destruct cur.
  - destruct (is_token_char x).
    + by apply IH.
    + destruct cur as [|y cur]; [by apply IH|].
      cbn [app]. f_equal. by apply IH.
Qed.

(** X3: a character that is not an ASCII letter or digit separates
    tokens: the tokens of [a ++ c :: b] are those of [a] followed by those
    of [b]. *)
Theorem tokenize_split (a b : str) (c : ascii) :
  is_token_char c = false ->
  tokenize (a ++ c :: b) = tokenize a ++ tokenize b.
Proof.
  intros Hc. unfold tokenize, findall.
  by rewrite findall_from_split, map_app.
Qed.

Lemma tokenize_split_witness :
  tokenize (py "big apple" ++ " "%char :: py "pie")
  = tokenize (py "big apple") ++ tokenize (py "pie").
Proof. apply tokenize_split. reflexivity. Defined.

Lemma findall_from_nonempty s : forall cur,
  Exists (fun c => is_token_char c = true) s -> findall_from cur s <> [].
Proof.
  induction s as [|c s IH]; intros cur Hex; [by apply Exists_nil in Hex|].
  cbn [findall_from]. destruct (is_token_char c) eqn:Hc.
  - destruct (decide (Exists (fun c => is_token_char c = true) s)) as [He|Hn].
    + by apply IH.
    + apply not_Exists_Forall in Hn; [|intros x; apply _].
      rewrite findall_from_no_token.
      * by destruct cur.
      * eapply Forall_impl; [exact Hn|]. intros x Hx. cbn in Hx.
        by destruct (is_token_char x).
  - apply Exists_cons in Hex as [Hx|Hex]; [congruence|].
    destruct cur; [by apply IH|done].
Qed.

(** X4: a text has no token exactly when it contains no ASCII letter and
    no digit. *)
Theorem tokenize_nil_iff (text : str) :
  tokenize text = [] <-> Forall (fun c => is_token_char c = false) text.
Proof.
  split; [|apply tokenize_no_token].
  intros Hnil.
  destruct (decide (Exists (fun c => is_token_char c = true) text)) as [He|Hn].
  - apply (findall_from_nonempty text []) in He.
    unfold tokenize, findall in Hnil. by destruct (findall_from [] text).
  - apply not_Exists_Forall in Hn; [|intros x; apply _].
    eapply Forall_impl; [exact Hn|]. intros x Hx. cbn in Hx.
    by destruct (is_token_char x).
Qed.

(* ===================================================================== *)
(** ** Invariants of a built index *)
(* ===================================================================== *)

Lemma total_freq_bump (m : gmap str nat) (t : str) :
  total_freq (<[t := default 0 (m !! t) + 1]> m) = total_freq m + 1.
Proof.
  unfold total_freq. destruct (m !! t) as [n|] eqn:Hm; cbn [default].
  - rewrite <- insert_delete_eq.
    rewrite map_to_list_insert by apply lookup_delete_eq.
    rewrite <- (map_to_list_delete m t n Hm). cbn. lia.
  - rewrite map_to_list_insert by done. cbn. lia.
Qed.

Lemma total_freq_count (toks : list str) : forall m : gmap str nat,
  total_freq
    (foldl (fun freq t => <[t := default 0 (freq !! t) + 1]> freq) m toks)
  = total_freq m + length toks.
Proof.
  induction toks as [|t toks IH]; intros m; cbn [foldl length]; [lia|].
  rewrite IH, total_freq_bump. lia.
Qed.

Lemma built_tf_files fs i freq :
  built_tf fs !! i = Some freq -> exists f, f ∈ fs /\ freq = file_freq f.
Proof.
  rewrite built_tf_kept. intros Hl.
  apply list_lookup_fmap_Some in Hl as (f & -> & Hf).
  exists f. split; [|done].
  apply list_elem_of_lookup_2 in Hf. by apply list_elem_of_filter in Hf as [_ ?].
Qed.

Lemma containing_elem (t : str) (tabs : list (gmap str nat)) (fr : gmap str nat) :
  fr ∈ tabs -> is_Some (fr !! t) -> 1 <= containing t tabs.
Proof.
  intros Hin Hs. unfold containing.
  assert (fr ∈ filter (fun fr : gmap str nat => is_Some (fr !! t)) tabs)
    as Hf by (by apply list_elem_of_filter).
  destruct (filter _ tabs); [by apply elem_of_nil in Hf|cbn; lia].
Qed.

Lemma file_len_total_freq (f : File) :
  length (tokenize (file_to_text f)) = total_freq (file_freq f).
Proof.
  unfold file_freq, count_tokens.
  rewrite total_freq_count. unfold total_freq.
  by rewrite map_to_list_empty.
Qed.

(** X5: in a built index the token count of a document equals the sum
    of the frequencies of its table. *)
Theorem doc_length_is_total_frequency (fs : list File) (i : nat) (d : Doc)
    (freq : gmap str nat) :
  docs (built fs) !! i = Some d ->
  tf (built fs) !! i = Some freq ->
  d_len d = total_freq freq.
Proof.
  intros Hd Hf. rewrite built_docs_eq in Hd. rewrite built_tf_eq in Hf.
  destruct (built_docs_tf _ _ _ _ Hd) as (f & _ & Htf & Hlen).
  assert (freq = file_freq f) as -> by congruence.
  rewrite Hlen. apply file_len_total_freq.
Qed.

Lemma doc_length_is_total_frequency_witness :
  d_len (mkDoc 1 (py "b.txt") (py "b.txt") (py "apple") 0 1)
  = total_freq {[ py "apple" := 1 ]}.
Proof.
  apply (doc_length_is_total_frequency fs_race 0); vm_compute; reflexivity.
Defined.

(** X6: in a built index every term of a document's table is a
    well-formed token, its frequency is between 1 and the document's token
    count, and the term has an entry in [df] (at least 1) and in [idf]: the
    default of [self.idf.get(t, 0.0)] is never taken. *)
Theorem table_terms_are_indexed (fs : list File) (i : nat) (d : Doc)
    (freq : gmap str nat) (t : str) (n : nat) :
  docs (built fs) !! i = Some d ->
  tf (built fs) !! i = Some freq ->
  freq !! t = Some n ->
  token t /\ 1 <= n <= d_len d
  /\ (exists k, df (built fs) !! t = Some k /\ 1 <= k)
  /\ is_Some (idf (built fs) !! t).
Proof.
  intros Hd Hf Ht.
  assert (d_len d = total_freq freq) as Hlen.
  { pose proof Hd as Hd'. rewrite built_docs_eq in Hd'.
    pose proof Hf as Hf'. rewrite built_tf_eq in Hf'.
    destruct (built_docs_tf _ _ _ _ Hd') as (f & _ & Htf & Hl).
    assert (freq = file_freq f) as -> by congruence.
    rewrite Hl. apply file_len_total_freq. }
  rewrite built_tf_eq in Hf.
  destruct (built_tf_files _ _ _ Hf) as (f & Hin & ->).
  assert (t ∈ tokenize (file_to_text f)) as Htok.
  { apply count_tokens_is_Some. unfold file_freq in Ht. by rewrite Ht. }
  pose proof (tokenize_lower_alnum (file_to_text f)) as Hwf.
  rewrite Forall_forall in Hwf. destruct (Hwf t Htok) as (Hne & Hal & _).
  pose proof (lower_alnum_token t Hne Hal) as Htk.
  assert (1 <= containing t (map file_freq fs)) as Hc.
  { apply (containing_elem t _ (file_freq f)).
    - apply list_elem_of_fmap. by exists f.
    - by rewrite Ht. }
  assert (df (built fs) !! t = Some (containing t (map file_freq fs))) as Hdf.
  { rewrite built_df_eq, built_df_lookup, lookup_empty.
    destruct (containing t (map file_freq fs)); [lia|]. cbn. f_equal. }
  split; [done|]. split; [|split].
  - split; [by eapply count_tokens_pos|].
    rewrite Hlen. unfold total_freq.
    apply (sum_list_with_in (t, n) snd). by apply elem_of_map_to_list.
  - eauto.
  - rewrite idf_lookup, Hdf. by eexists.
Qed.

Lemma table_terms_are_indexed_witness :
  token (py "apple") /\ 1 <= 1 <= 1
  /\ (exists k, df (built fs_race) !! py "apple" = Some k /\ 1 <= k)
  /\ is_Some (idf (built fs_race) !! py "apple").
Proof.
  apply (table_terms_are_indexed fs_race 0
           (mkDoc 1 (py "b.txt") (py "b.txt") (py "apple") 0 1)
           {[ py "apple" := 1 ]} (py "apple") 1);
    vm_compute; reflexivity.
Defined.

Lemma built_docs_ids_sorted fs : forall i,
  StronglySorted lt (map d_id (built_docs i fs))
  /\ Forall (fun d => i <= d_id d < i + length fs) (built_docs i fs).
Proof.
  induction fs as [|f fs IH]; intros i; cbn [built_docs length].
  - split; constructor.
  - destruct (IH (S i)) as [Hs Hb].
    assert (Forall (fun d => i <= d_id d < i + S (length fs))
                   (built_docs (S i) fs)) as Hb'.
    { eapply Forall_impl; [exact Hb|]. cbn. intros d ?. lia. }
    destruct (f_mtime f) as [m|]; [|done]. split.
    + cbn [map d_id]. constructor; [done|].
      apply Forall_fmap. eapply Forall_impl; [exact Hb|].
      cbn. intros d ?. lia.
    + constructor; [cbn; lia|done].
Qed.

Lemma built_docs_all_kept fs : forall i,
  Forall has_mtime fs ->
  map d_id (built_docs i fs) = seq i (length fs).
Proof.
  induction fs as [|f fs IH]; intros i Hall; [done|].
  apply Forall_cons in Hall as [[m Hm] Hall]. cbn [built_docs].
  rewrite Hm. cbn. f_equal. by apply IH.
Qed.

Lemma built_docs_id_ge fs : forall i k d,
  built_docs i fs !! k = Some d -> i + k <= d_id d.
Proof.
  induction fs as [|f fs IH]; intros i k d Hk; [done|]. cbn in Hk.
  destruct (f_mtime f) as [m|].
  - destruct k as [|k]; cbn in Hk.
    + injection Hk as <-. cbn. lia.
    + apply IH in Hk. lia.
  - apply IH in Hk. lia.
Qed.

(** X7: the ids of the documents of a built index are walk positions:
    they increase strictly along [docs] (so no two documents share an id),
    each is at least the document's position and below the number of
    walked files, and they are exactly 0, 1, 2, ... when no file was
    skipped. *)
Theorem doc_ids_increase (fs : list File) :
  StronglySorted lt (map d_id (docs (built fs)))
  /\ NoDup (map d_id (docs (built fs)))
  /\ (forall k d, docs (built fs) !! k = Some d ->
        k <= d_id d < length fs)
  /\ (Forall has_mtime fs ->
        map d_id (docs (built fs)) = seq 0 (length fs)).
Proof.
  rewrite built_docs_eq.
  destruct (built_docs_ids_sorted fs 0) as [Hs Hb].
  split; [done|]. split; [|split].
  - clear Hb. induction Hs as [|x l _ IH Hx]; constructor; [|done].
    intros Hin. rewrite Forall_forall in Hx. specialize (Hx x Hin). lia.
  - intros k d Hk. split.
    + by apply (built_docs_id_ge fs 0 k d).
    + rewrite Forall_forall in Hb.
      apply list_elem_of_lookup_2 in Hk. specialize (Hb d Hk). lia.
  - apply built_docs_all_kept.
Qed.

(** *** The statistics do not depend on the order of the walk *)

Lemma containing_perm (t : str) (l k : list (gmap str nat)) :
  l ≡ₚ k -> containing t l = containing t k.
Proof. intros Hp. unfold containing. by rewrite Hp. Qed.

Lemma built_docs_lens fs : forall i,
  map d_len (built_docs i fs)
  = map (fun f => length (tokenize (file_to_text f))) (filter has_mtime fs).
Proof.
  induction fs as [|f fs IH]; intros i; [done|]. cbn [built_docs].
  destruct (f_mtime f) as [m|] eqn:Hm.
  - rewrite filter_cons_True by (unfold has_mtime; rewrite Hm; eauto).
    cbn. by rewrite IH.
  - rewrite filter_cons_False; [apply IH|].
    unfold has_mtime. rewrite Hm. by intros [? ?].
Qed.

(** X8: the term statistics do not depend on the order in which
    [walk_docs] yields the files: two walks that yield the same files in a
    different order give the same [df], the same [idf], the same [avgdl]
    and the same number of documents. *)
Theorem statistics_ignore_walk_order (fs fs' : list File) :
  fs ≡ₚ fs' ->
  df (built fs) = df (built fs')
  /\ idf (built fs) = idf (built fs')
  /\ avgdl (built fs) = avgdl (built fs')
  /\ length (docs (built fs)) = length (docs (built fs')).
Proof.
  intros Hp.
  assert (df (built fs) = df (built fs')) as Hdf.
  { apply map_eq. intros t. rewrite !built_df_eq, !built_df_lookup.
    by rewrite (containing_perm t _ (map file_freq fs'))
      by (by apply Permutation_map). }
  assert (length (built_docs 0 fs) = length (built_docs 0 fs')) as Hlen.
  { rewrite !built_docs_length, !built_tf_kept, !length_map. by rewrite Hp. }
  assert (doc_count (built_docs 0 fs) = doc_count (built_docs 0 fs')) as HN
    by (unfold doc_count; by rewrite Hlen).
  split; [done|]. split; [|split].
  - rewrite !built_idf_eq, HN. rewrite !built_df_eq in Hdf. by rewrite Hdf.
  - rewrite !built_avgdl_eq, HN. do 2 f_equal.
    rewrite !built_docs_lens.
    apply sum_list_with_Permutation_proper.
    apply Permutation_map. by rewrite Hp.
  - by rewrite !built_docs_eq.
Qed.

Lemma statistics_ignore_walk_order_witness :
  df (built fs_race) = df (built (reverse fs_race))
  /\ idf (built fs_race) = idf (built (reverse fs_race))
  /\ avgdl (built fs_race) = avgdl (built (reverse fs_race))
  /\ length (docs (built fs_race)) = length (docs (built (reverse fs_race))).
Proof.
  apply (statistics_ignore_walk_order fs_race (reverse fs_race)).
  apply perm_swap.
Defined.

Lemma sum_list_bounds (l : list nat) (m : nat) :
  (Forall (fun x => x <= m) l -> sum_list l <= m * length l)
  /\ (Forall (fun x => m <= x) l -> m * length l <= sum_list l).
Proof.
  split; induction 1 as [|x l Hx _ IH]; cbn;
    rewrite ?Nat.mul_0_r, ?Nat.mul_succ_r; lia.
Qed.

(** X9: [avgdl] is never negative, it is 0 exactly when no document has
    a token (in particular for an empty index), and it lies between the
    smallest and the largest token count of the documents. *)
Theorem avgdl_bounds (fs : list File) :
  (0 <= avgdl (built fs))%R
  /\ (avgdl (built fs) = 0%R
      <-> Forall (fun d => d_len d = 0) (docs (built fs)))
  /\ (forall m : nat,
        Forall (fun d => d_len d <= m) (docs (built fs)) ->
        (avgdl (built fs) <= INR m)%R)
  /\ (forall m : nat,
        docs (built fs) <> [] ->
        Forall (fun d => m <= d_len d) (docs (built fs)) ->
        (INR m <= avgdl (built fs))%R).
Proof.
  rewrite built_avgdl_eq, built_docs_eq.
  set (ds := built_docs 0 fs).
  pose proof (doc_count_pos ds) as HN.
  assert (0 < INR (doc_count ds))%R as HNR by (apply lt_0_INR; lia).
  pose proof (pos_INR (sum_list (map d_len ds))) as Hsum.
  split; [|split; [|split]].
  - apply Rmult_le_pos; [done|]. left. by apply Rinv_0_lt_compat.
  - split.
    + intros Hz. apply Forall_forall. intros d Hd.
      assert (INR (sum_list (map d_len ds)) = 0%R) as Hs.
      { apply (Rmult_eq_compat_r (INR (doc_count ds))) in Hz.
        unfold Rdiv in Hz. rewrite Rmult_assoc, Rinv_l in Hz by lra. lra. }
      change 0%R with (INR 0) in Hs. apply INR_eq in Hs.
      assert (d_len d <= sum_list (map d_len ds)); [|lia].
      apply sum_list_elem. apply list_elem_of_fmap. by exists d.
    + intros Hall.
      assert (sum_list (map d_len ds) = 0) as ->.
      { clear HN HNR Hsum.
        induction Hall as [|d l Hd _ IH]; [done|]. cbn. rewrite Hd. exact IH. }
      cbn. unfold Rdiv. lra.
  - intros m Hall.
    assert (sum_list (map d_len ds) <= m * doc_count ds) as Hle.
    { destruct (sum_list_bounds (map d_len ds) m) as [Hup _].
      rewrite length_map in Hup.
      etrans; [apply Hup; by apply Forall_fmap|].
      unfold doc_count. destruct (length ds); lia. }
    apply le_INR in Hle. rewrite mult_INR in Hle.
    apply (Rmult_le_reg_r (INR (doc_count ds))); [done|].
    unfold Rdiv. rewrite Rmult_assoc, Rinv_l by lra. lra.
  - intros m Hne Hall.
    assert (m * doc_count ds <= sum_list (map d_len ds)) as Hle.
    { destruct (sum_list_bounds (map d_len ds) m) as [_ Hlow].
      rewrite length_map in Hlow.
      etrans; [|apply Hlow; by apply Forall_fmap].
      unfold doc_count. destruct ds; [done|]. cbn [length]. lia. }
    apply le_INR in Hle. rewrite mult_INR in Hle.
    apply (Rmult_le_reg_r (INR (doc_count ds))); [done|].
    unfold Rdiv. rewrite Rmult_assoc, Rinv_l by lra. lra.
Qed.

Lemma py_index_mod {A} (l : list A) (i : Z) :
  (- Z.of_nat (length l) <= i < Z.of_nat (length l))%Z ->
  py_index l i = l !! Z.to_nat (i mod Z.of_nat (length l)).
Proof.
  intros Hi. unfold py_index.
  destruct (Z.leb_spec 0 i) as [Hpos|Hneg].
  - by rewrite Z.mod_small by lia.
  - destruct (Z.leb_spec (- Z.of_nat (length l)) i) as [_|?]; [|lia].
    f_equal. f_equal.
    rewrite <- (Z.mod_add i 1 (Z.of_nat (length l))) by lia.
    rewrite Z.mod_small by lia. lia.
Qed.

Lemma py_index_out {A} (l : list A) (i : Z) :
  (i < - Z.of_nat (length l) \/ Z.of_nat (length l) <= i)%Z ->
  py_index l i = None.
Proof.
  intros Hi. unfold py_index.
  destruct (Z.leb_spec 0 i) as [Hpos|Hneg].
  - apply lookup_ge_None. lia.
  - destruct (Z.leb_spec (- Z.of_nat (length l)) i); [lia|done].
Qed.

(** X10: [score] accepts the document numbers [i] with
    [-len(self.docs) <= i < len(self.docs)]: on a built index it returns
    for them, a negative number counting from the end (the result is that
    of the number [i mod len(self.docs)]); for every other number it
    raises [IndexError].  The index is left unchanged and the lock
    free. *)
Theorem score_bounds (fs : list File) (q_terms : list str) (i : Z) :
  (forall (st : BM25Index) (k : nat) (k1 b : R),
     score_int q_terms (Z.of_nat k) k1 b st = score q_terms k k1 b st)
  /\ ((- Z.of_nat (length (docs (built fs))) <= i
       < Z.of_nat (length (docs (built fs))))%Z ->
      exists r,
        score_int q_terms i K1 B (built fs) = Returned r (built fs)
        /\ score q_terms
             (Z.to_nat (i mod Z.of_nat (length (docs (built fs))))) K1 B
             (built fs)
           = Returned r (built fs))
  /\ ((i < - Z.of_nat (length (docs (built fs)))
       \/ Z.of_nat (length (docs (built fs))) <= i)%Z ->
      score_int q_terms i K1 B (built fs) = Raised IndexError (built fs)).
Proof.
  assert (length (tf (built fs)) = length (docs (built fs))) as Hlen.
  { rewrite built_docs_eq, built_tf_eq. symmetry. apply built_docs_length. }
  split; [|split].
  - intros st k k1 b. unfold score_int, score, py_index.
    destruct (Z.leb_spec 0 (Z.of_nat k)) as [_|?]; [|lia].
    by rewrite Nat2Z.id.
  - intros Hi.
    set (n := length (docs (built fs))) in *.
    assert (Z.to_nat (i mod Z.of_nat n) < n) as Hlt.
    { pose proof (Z.mod_pos_bound i (Z.of_nat n) ltac:(lia)). lia. }
    apply lookup_lt_is_Some in Hlt as [d Hd].
    destruct (built_tf_lookup fs _ d Hd) as [freq Hf].
    exists (bm25 (built fs) d freq K1 B q_terms).
    assert (score q_terms (Z.to_nat (i mod Z.of_nat n)) K1 B (built fs)
            = Returned (bm25 (built fs) d freq K1 B q_terms) (built fs))
      as Hs by (by apply score_built).
    split; [|done]. rewrite <- Hs. unfold score_int, score, with_lock.
    change (lock (built fs)) with false. cbn [negb].
    unfold bind, get. cbn [docs tf set_lock].
    rewrite (py_index_mod (docs (built fs))) by (fold n; lia).
    rewrite (py_index_mod (tf (built fs))) by (rewrite Hlen; fold n; lia).
    rewrite Hlen. done.
  - intros Hi. unfold score_int, with_lock.
    change (lock (built fs)) with false. cbn [negb].
    unfold bind, get. cbn [docs set_lock].
    rewrite (py_index_out (docs (built fs))) by done.
    unfold raise. by rewrite unlock_relock.
Qed.

(* ===================================================================== *)
(** ** The staleness check *)
(* ===================================================================== *)



Lemma scan_fails fs :
  ~ Forall has_mtime fs -> scan fs = None.
Proof.
  induction fs as [|f fs IH]; intros Hn; [destruct Hn; constructor|].
  cbn [scan]. destruct (f_mtime f) as [m|] eqn:Hm; [|done].
  rewrite IH; [done|]. intros Hall. apply Hn. constructor; [|done].
  unfold has_mtime. rewrite Hm. eauto.
Qed.

Lemma have_set_empty (ds : list Doc) : have_set ds = ∅ <-> ds = [].
Proof.
  split; [|by intros ->]. destruct ds as [|d ds]; [done|].
  unfold have_set. cbn. intros Heq.
  assert ((d_path d, d_mtime d) ∈ (∅ : gset (str * Z))) as Hin
    by (rewrite <- Heq; set_solver).
  set_solver.
Qed.






(** X13: when the modification time of some walked file cannot be read,
    the check compares the indexed documents with the empty set: it asks
    for a rebuild exactly when the index holds a document.  So an index
    with documents is rebuilt on every check, and an empty index is never
    rebuilt by the check, whatever files have appeared. *)
Theorem unreadable_mtime_check (fs : list File) (st : BM25Index) :
  ~ Forall has_mtime fs ->
  (stale fs st = true <-> docs st <> [])
  /\ (lock st = false -> docs st = [] ->
        maybe_reindex fs st = Returned tt st)
  /\ (lock st = false -> docs st <> [] ->
        maybe_reindex fs st = Returned tt (built fs)).
Proof.
  intros Hn.
  assert (stale fs st = bool_decide (docs st <> [])) as Hst.
  { unfold stale. rewrite (scan_fails fs Hn). cbn [default list_to_set].
    apply bool_decide_ext. split.
    - intros Hne Hd. apply Hne. by rewrite Hd.
    - intros Hne Heq. symmetry in Heq. by apply have_set_empty in Heq. }
  split; [by rewrite Hst, bool_decide_eq_true|].
  split; intros Hl Hd; rewrite maybe_reindex_spec, Hst by done.
  - rewrite bool_decide_false; [done|]. by intros Hne.
  - by rewrite bool_decide_true.
Qed.

Lemma unreadable_mtime_check_witness :
  (stale fs_race blank = true <-> docs blank <> [])
  /\ (lock blank = false -> docs blank = [] ->
        maybe_reindex fs_race blank = Returned tt blank)
  /\ (lock blank = false -> docs blank <> [] ->
        maybe_reindex fs_race blank = Returned tt (built fs_race)).
Proof.
  apply (unreadable_mtime_check fs_race blank).
  intros Hall. apply Forall_cons in Hall as [[m Hm] _]. discriminate Hm.
Defined.

(** X14: checking twice in a row is the same as checking once. *)
Theorem maybe_reindex_twice (fs : list File) (st : BM25Index) :
  lock st = false ->
  (maybe_reindex fs ;;; maybe_reindex fs) st = maybe_reindex fs st.
Proof.
  intros Hl. unfold bind. rewrite maybe_reindex_spec by done.
  destruct (stale fs st) eqn:Hs.
  - rewrite maybe_reindex_spec by done. by destruct (stale fs (built fs)).
  - rewrite maybe_reindex_spec by done. by rewrite Hs.
Qed.

Lemma maybe_reindex_twice_witness :
  (maybe_reindex fs_race ;;; maybe_reindex fs_race) (built fs_apple)
  = maybe_reindex fs_race (built fs_apple).
Proof. apply (maybe_reindex_twice fs_race (built fs_apple)). reflexivity. Defined.

(* ===================================================================== *)
(** ** The sign and the shape of a score *)
(* ===================================================================== *)

Section ScoreShape.
Local Open Scope R_scope.

Lemma div_lt_cross (x1 y1 x2 y2 : R) :
  0 < y1 -> 0 < y2 -> x1 * y2 < x2 * y1 -> x1 / y1 < x2 / y2.
Proof.
  intros H1 H2 Hlt.
  assert (0 < y1 * y2) as Hy by (by apply Rmult_lt_0_compat).
  apply (Rmult_lt_reg_r (y1 * y2)); [done|].
  unfold Rdiv.
  replace (x1 * / y1 * (y1 * y2)) with (x1 * y2 * (y1 * / y1)) by ring.
  replace (x2 * / y2 * (y1 * y2)) with (x2 * y1 * (y2 * / y2)) by ring.
  rewrite !Rinv_r by lra. lra.
Qed.

Lemma norm_pos (dl : nat) (avg : R) :
  0 < avg -> 0 < K1 * (1 - B + B * INR dl / avg).
Proof.
  intros Ha. pose proof (denom_pos 0 dl avg Ha) as H. cbn [INR] in H. lra.
Qed.

Lemma bm25_term_pos idfv tfv dl avg :
  0 < idfv -> (1 <= tfv)%nat -> 0 < avg ->
  0 < bm25_term idfv tfv dl avg K1 B.
Proof.
  intros Hi Ht Ha. unfold bm25_term.
  assert (1 <= INR tfv) by (change 1 with (INR 1); by apply le_INR).
  apply Rdiv_lt_0_compat; [|by apply denom_pos].
  apply Rmult_lt_0_compat; [apply Rmult_lt_0_compat; lra|unfold K1; lra].
Qed.

Lemma Rsum_pos (l : list R) :
  l <> [] -> Forall (fun x => 0 < x) l -> 0 < Rsum l.
Proof.
  intros Hne Hall. destruct Hall as [|x l Hx Hl]; [done|]. cbn.
  assert (0 <= Rsum l); [|lra].
  apply Rsum_nonneg. eapply Forall_impl; [exact Hl|]. cbn. intros. lra.
Qed.

End ScoreShape.

Lemma idf_clean_pos (fs : list File) (t : str) (k : nat) :
  Forall has_mtime fs -> df (built fs) !! t = Some k ->
  idf (built fs) !! t = Some (idf_value (doc_count (docs (built fs))) k)
  /\ (0 < idf_value (doc_count (docs (built fs))) k)%R.
Proof.
  intros Hall Hk. rewrite idf_lookup, Hk. split; [done|].
  apply idf_value_pos.
  destruct (df_clean_build fs t Hall) as [_ Hle]. rewrite Hk in Hle.
  change (k <= length (docs (built fs))) in Hle. unfold doc_count.
  destruct (length (docs (built fs))); [lia|done].
Qed.

Lemma table_term_df (fs : list File) (i : nat) (d : Doc)
    (freq : gmap str nat) (t : str) (n : nat) :
  docs (built fs) !! i = Some d -> tf (built fs) !! i = Some freq ->
  freq !! t = Some n ->
  1 <= n /\ exists k, df (built fs) !! t = Some k.
Proof.
  intros Hd Hf Ht. rewrite built_tf_eq in Hf.
  destruct (built_tf_files _ _ _ Hf) as (f & Hin & ->).
  split; [by eapply count_tokens_pos|].
  assert (1 <= containing t (map file_freq fs)) as Hc.
  { apply (containing_elem t _ (file_freq f)).
    - apply list_elem_of_fmap. by exists f.
    - by rewrite Ht. }
  rewrite built_df_eq, built_df_lookup, lookup_empty.
  destruct (containing t (map file_freq fs)); [lia|]. eauto.
Qed.

(** X15: after a build that skipped no file, the score of a document is
    positive exactly when its table contains at least one of the query
    terms, and it is 0 exactly when it contains none: the test [s > 0] of
    [search] keeps the documents that match. *)
Theorem score_positive_iff_match (fs : list File) (q_terms : list str)
    (i : nat) (d : Doc) (freq : gmap str nat) :
  Forall has_mtime fs ->
  docs (built fs) !! i = Some d ->
  tf (built fs) !! i = Some freq ->
  exists r : R,
    score q_terms i K1 B (built fs) = Returned r (built fs)
    /\ ((0 < r)%R <-> Exists (fun t => is_Some (freq !! t)) q_terms)
    /\ (r = 0%R <-> Forall (fun t => freq !! t = None) q_terms).
Proof.
  intros Hall Hd Hf. exists (bm25 (built fs) d freq K1 B q_terms).
  split; [by apply score_built|].
  assert (Exists (fun t => is_Some (freq !! t)) q_terms ->
          (0 < bm25 (built fs) d freq K1 B q_terms)%R) as Hpos.
  { intros Hex. unfold bm25. apply Rsum_pos.
    - apply Exists_exists in Hex as (t & Hin & Ht).
      assert (t ∈ present freq q_terms) as Hp
        by (by apply list_elem_of_filter).
      intros Hnil. apply map_eq_nil in Hnil. rewrite Hnil in Hp.
      by apply elem_of_nil in Hp.
    - apply Forall_forall.
      intros x (t & -> & Hin)%list_elem_of_fmap.
      apply list_elem_of_filter in Hin as [[n Hn] Hin].
      destruct (table_term_df fs i d freq t n Hd Hf Hn) as (Hn1 & k & Hk).
      destruct (idf_clean_pos fs t k Hall Hk) as [Hidf Hip].
      unfold contribution. rewrite Hidf, Hn. cbn [default].
      apply bm25_term_pos; [done|done|].
      eapply term_found_avgdl; [exact Hd|exact Hf|by rewrite Hn]. }
  assert (Forall (fun t => freq !! t = None) q_terms ->
          bm25 (built fs) d freq K1 B q_terms = 0%R) as Hzero.
  { intros Hno. apply bm25_no_match. by apply Forall_forall. }
  assert (Forall (fun t => freq !! t = None) q_terms
          \/ Exists (fun t => is_Some (freq !! t)) q_terms) as Hcase.
  { destruct (decide (Exists (fun t => is_Some (freq !! t)) q_terms))
      as [He|Hn]; [by right|left].
    apply not_Exists_Forall in Hn; [|intros x; apply _].
    eapply Forall_impl; [exact Hn|]. cbn. intros t Ht.
    destruct (freq !! t); [destruct Ht; eauto|done]. }
  split; split.
  - intros Hr. destruct Hcase as [Hno|He]; [|done].
    rewrite (Hzero Hno) in Hr. lra.
  - exact Hpos.
  - intros Hr. destruct Hcase as [Hno|He]; [done|].
    apply Hpos in He. lra.
  - exact Hzero.
Qed.

Lemma score_positive_iff_match_witness :
  exists r : R,
    score [py "apple"] 0 K1 B (built fs_apple) = Returned r (built fs_apple)
    /\ ((0 < r)%R
        <-> Exists (fun t => is_Some (({[ py "apple" := 1 ]} : gmap str nat)
                                        !! t))
                   [py "apple"])
    /\ (r = 0%R
        <-> Forall (fun t => ({[ py "apple" := 1 ]} : gmap str nat) !! t
                             = None)
                   [py "apple"]).
Proof.
  apply (score_positive_iff_match fs_apple [py "apple"] 0
           (mkDoc 0 (py "a.txt") (py "a.txt") (py "apple") 0 1)
           {[ py "apple" := 1 ]}).
  - repeat constructor. by exists 0%Z.
  - vm_compute; reflexivity.
  - vm_compute; reflexivity.
Defined.


(* ===================================================================== *)
(** ** Ranking *)
(* ===================================================================== *)

(** X17: called with the lock free, [search] has two outcomes only.  It
    returns the empty list, with the lock free again and the index as the
    staleness check left it, when the query has no term or the index has
    no document; otherwise it waits for ever.  It never raises and never
    returns a hit. *)
Theorem search_outcomes (O : SetOrder) (fs : list File) (query : str)
    (limit : Z) (st : BM25Index) :
  lock st = false ->
  (search O fs query limit st = Returned [] (refreshed fs st)
   /\ lock (refreshed fs st) = false
   /\ (tokenize query = [] \/ docs (refreshed fs st) = []))
  \/ (search O fs query limit st = Blocked
      /\ tokenize query <> [] /\ docs (refreshed fs st) <> []).
Proof.
  intros Hl. rewrite search_spec by done.
  pose proof (refreshed_lock fs st Hl) as Hl'.
  destruct (tokenize query) as [|t q]; [left; eauto|].
  destruct (docs (refreshed fs st)) as [|d ds]; [left; eauto|].
  right. done.
Qed.

Lemma search_outcomes_witness :
  (search first_seen fs_apple (py "pear") 20 (built fs_apple)
   = Returned [] (refreshed fs_apple (built fs_apple))
   /\ lock (refreshed fs_apple (built fs_apple)) = false
   /\ (tokenize (py "pear") = []
       \/ docs (refreshed fs_apple (built fs_apple)) = []))
  \/ (search first_seen fs_apple (py "pear") 20 (built fs_apple) = Blocked
      /\ tokenize (py "pear") <> []
      /\ docs (refreshed fs_apple (built fs_apple)) <> []).
Proof.
  apply (search_outcomes first_seen fs_apple (py "pear") 20 (built fs_apple)).
  reflexivity.
Defined.

Section SortScores.
Context {A : Type} (key : A -> R).

Lemma Rltb_true (x y : R) : Rltb x y = true <-> (x < y)%R.
Proof. unfold Rltb. destruct (Rlt_dec x y); split; done. Qed.

Lemma insert_scores_perm (x : A) (l : list A) :
  insert_desc key Rltb x l ≡ₚ x :: l.
Proof.
  induction l as [|y l IH]; [reflexivity|]. cbn [insert_desc].
  destruct (Rltb (key x) (key y)); [|reflexivity].
  rewrite IH. apply perm_swap.
Qed.

Lemma sort_scores_perm (l : list A) : sort_desc key Rltb l ≡ₚ l.
Proof.
  induction l as [|x l IH]; [reflexivity|].
  cbn [sort_desc foldr]. fold (sort_desc key Rltb l).
  by rewrite insert_scores_perm, IH.
Qed.

Lemma insert_scores_sorted (x : A) (l : list A) :
  StronglySorted (fun a b => (key b <= key a)%R) l ->
  StronglySorted (fun a b => (key b <= key a)%R) (insert_desc key Rltb x l).
Proof.
  induction 1 as [|y l Hs IH Hy]; cbn [insert_desc].
  - repeat constructor.
  - destruct (Rltb (key x) (key y)) eqn:Hlt.
    + apply Rltb_true in Hlt. constructor; [done|].
      rewrite insert_scores_perm. constructor; [lra|done].
    + assert (key y <= key x)%R as Hge.
      { destruct (Rle_or_lt (key y) (key x)) as [?|Hlt']; [done|].
        apply Rltb_true in Hlt'. congruence. }
      constructor; [by constructor|].
      constructor; [done|].
      eapply Forall_impl; [exact Hy|]. cbn. intros z Hz. lra.
Qed.

Lemma sort_scores_sorted (l : list A) :
  StronglySorted (fun a b => (key b <= key a)%R) (sort_desc key Rltb l).
Proof.
  induction l as [|x l IH]; [constructor|].
  cbn [sort_desc foldr]. by apply insert_scores_sorted.
Qed.

Lemma insert_scores_stable (v : R) (x : A) (l : list A) :
  filter (fun a => key a = v) (insert_desc key Rltb x l)
  = filter (fun a => key a = v) (x :: l).
Proof.
  induction l as [|y l IH]; [done|]. cbn [insert_desc].
  destruct (Rltb (key x) (key y)) eqn:Hlt; [|done].
  apply Rltb_true in Hlt. rewrite filter_cons, IH.
  destruct (decide (key y = v)) as [Hy|Hy].
  - rewrite (filter_cons_False _ x) by lra.
    rewrite (filter_cons_False _ x) by lra.
    by rewrite filter_cons_True.
  - rewrite !(filter_cons _ x). destruct (decide (key x = v)).
    + by rewrite filter_cons_False.
    + by rewrite filter_cons_False.
Qed.

Lemma sort_scores_stable (v : R) (l : list A) :
  filter (fun a => key a = v) (sort_desc key Rltb l)
  = filter (fun a => key a = v) l.
Proof.
  induction l as [|x l IH]; [done|].
  cbn [sort_desc foldr]. fold (sort_desc key Rltb l).
  rewrite insert_scores_stable, !filter_cons. by rewrite IH.
Qed.

End SortScores.

(** X18: the sort step of [search] ([scores.sort(reverse=True, key=...)])
    rearranges the hits so that scores never increase along the list, and
    it is stable: hits with the same score keep the order in which they
    were collected, which is the order of the document numbers. *)
Theorem sort_by_score (hits : list (R * nat)) :
  sort_desc fst Rltb hits ≡ₚ hits
  /\ StronglySorted (fun a b : R * nat => (fst b <= fst a)%R)
                    (sort_desc fst Rltb hits)
  /\ forall s : R,
       filter (fun h : R * nat => fst h = s) (sort_desc fst Rltb hits)
       = filter (fun h : R * nat => fst h = s) hits.
Proof.
  split; [apply sort_scores_perm|]. split; [apply sort_scores_sorted|].
  intros s. apply sort_scores_stable.
Qed.

(** The loop that turns hits into result records returns one record
    per hit, in the order of the hits, with the hit's score, the title,
    path and modification time of the document the hit names, and the
    240-character snippet of its text; it raises [IndexError] when a hit
    names a document number that is out of range.  It does not change the
    index. *)
Lemma build_results_spec (O : SetOrder) (q_terms : list str)
    (hits : list (R * nat)) (st : BM25Index) :
  (Forall (fun h => snd h < length (docs st)) hits ->
     exists rs,
       build_results O q_terms hits st = Returned rs st
       /\ Forall2 (fun h r =>
                     exists d, docs st !! snd h = Some d
                       /\ r = mkResult (d_title d) (d_path d) (fst h)
                                (make_snippet O (d_text d) q_terms 240)
                                (d_mtime d))
                  hits rs)
  /\ (Exists (fun h => length (docs st) <= snd h) hits ->
        build_results O q_terms hits st = Raised IndexError st).
Proof.
  split.
  - induction 1 as [|[s i] hits Hi _ IH]; cbn [build_results].
    + exists []. split; [done|constructor].
    + destruct IH as (rs & Hrs & Hall). cbn in Hi.
      apply lookup_lt_is_Some in Hi as [d Hd].
      unfold bind at 1. unfold get at 1. rewrite Hd.
      unfold bind at 1. rewrite Hrs. eexists. split; [done|].
      constructor; [|done]. exists d. done.
  - induction hits as [|[s i] hits IH]; intros Hex;
      [by apply Exists_nil in Hex|].
    cbn [build_results]. unfold bind at 1. unfold get at 1.
    destruct (docs st !! i) as [d|] eqn:Hd; [|done].
    apply Exists_cons in Hex as [Hbad|Hex].
    + cbn in Hbad. apply lookup_lt_Some in Hd. lia.
    + unfold bind at 1. by rewrite (IH Hex).
Qed.

(* ===================================================================== *)
(** ** Escaping and highlighting *)
(* ===================================================================== *)

Lemma escape_char_clean c :
  Forall (fun x => is_markup_char x = false) (escape_char c).
Proof.
  unfold escape_char.
  destruct (code c =? 38)%nat eqn:H38; [by repeat constructor|].
  destruct (code c =? 60)%nat eqn:H60; [by repeat constructor|].
  destruct (code c =? 62)%nat eqn:H62; [by repeat constructor|].
  destruct (code c =? 34)%nat eqn:H34; [by repeat constructor|].
  destruct (code c =? 39)%nat eqn:H39; [by repeat constructor|].
  constructor; [|constructor].
  unfold is_markup_char. by rewrite H60, H62, H34, H39.
Qed.

(** X19: the output of [html.escape] contains no less-than sign, no
    greater-than sign, no double quote and no single quote, and it is at
    least as long as its input. *)
Theorem html_escape_is_clean (s : str) :
  Forall (fun x => is_markup_char x = false) (html_escape s)
  /\ length s <= length (html_escape s).
Proof.
  split; [|apply html_escape_length].
  induction s as [|c s IH]; [constructor|].
  change (html_escape (c :: s)) with (escape_char c ++ html_escape s).
  apply Forall_app. split; [apply escape_char_clean|done].
Qed.

Lemma sub_from_inserts t : forall fuel prev s,
  s `sublist_of` sub_from fuel t prev s.
Proof.
  induction fuel as [|fuel IH]; intros prev s; [done|].
  destruct s as [|c s]; [done|]. cbn [sub_from].
  destruct (match_here t prev (c :: s)).
  - rewrite <- (take_drop (length t) (c :: s)) at 1.
    apply sublist_inserts_l. apply sublist_app; [done|].
    apply sublist_inserts_l. apply IH.
  - apply sublist_skip. apply IH.
Qed.

Lemma sub_empty_inserts s : forall prev, s `sublist_of` sub_empty prev s.
Proof.
  induction s as [|c s IH]; intros prev.
  - apply sublist_nil_l.
  - cbn [sub_empty]. apply sublist_inserts_l. apply sublist_skip. apply IH.
Qed.

Lemma re_sub_mark_inserts t s : s `sublist_of` re_sub_mark t s.
Proof.
  destruct t; [apply sub_empty_inserts|apply sub_from_inserts].
Qed.

Lemma highlight_inserts ts : forall esc, esc `sublist_of` highlight ts esc.
Proof.
  induction ts as [|t ts IH]; intros esc; [done|].
  cbn [highlight foldl]. fold (highlight ts (re_sub_mark t esc)).
  etrans; [apply re_sub_mark_inserts|apply IH].
Qed.

(** X20: highlighting only inserts characters.  Every pass leaves the
    characters of its input in place and in order, so the escaped window
    is a subsequence of the snippet, whatever the query terms are. *)
Theorem highlighting_only_inserts (O : SetOrder) (text : str)
    (terms : list str) (width : nat) :
  let pos := first_hit_span text terms in
  let start := pos - width / 4 in
  let end_ := Nat.min (length text) (start + width) in
  let window := take (end_ - start) (drop start text) in
  (forall t s, s `sublist_of` re_sub_mark t s)
  /\ of_str (html_escape window)
     `sublist_of` make_snippet O text terms width.
Proof.
  intros pos start end_ window. split; [apply re_sub_mark_inserts|].
  unfold make_snippet. fold pos. rewrite Nat.max_0_l. fold start end_ window.
  apply sublist_inserts_l, sublist_inserts_r.
  unfold of_str. apply fmap_sublist. apply highlight_inserts.
Qed.





Lemma ci_occurs_at_bound t p text :
  ci_occurs_at t p text -> p + length t <= length text.
Proof.
  intros (pre & occ & post & -> & <- & Hlow).
  apply lower_length in Hlow. rewrite !length_app. lia.
Qed.

(** X22: on a text over code points below 256 (where [lower] keeps the
    offsets) and for non-empty lower-case terms (what [tokenize] returns):
    when a term occurs in the text, letter case apart, and the width is at
    least 1, the window contains the offset of the first hit; and the term
    found there lies entirely in the window when it is not longer than
    three quarters of the width. *)
Theorem first_hit_in_window (text : str) (terms : list str) (width : nat) :
  1 <= width ->
  Forall (fun t : str => t <> []) terms ->
  Forall lower_case terms ->
  (exists t p, t ∈ terms /\ ci_occurs_at t p text) ->
  let pos := first_hit_span text terms in
  let start := pos - width / 4 in
  let end_ := Nat.min (length text) (start + width) in
  start <= pos < end_
  /\ exists t, t ∈ terms /\ ci_occurs_at t pos text
       /\ (length t <= width - width / 4 -> pos + length t <= end_).
Proof.
  intros Hw Hne Hlc Hex pos start end_.
  destruct (first_hit_span_least text terms Hlc Hex) as [(t & Hin & Hocc) _].
  fold pos in Hocc. pose proof (ci_occurs_at_bound _ _ _ Hocc) as Hb.
  assert (1 <= length t) as Hlt.
  { rewrite Forall_forall in Hne. specialize (Hne t Hin).
    destruct t; [done|cbn; lia]. }
  assert (width / 4 < width) as Hq by (apply Nat.div_lt; lia).
  split; [unfold end_, start; lia|].
  exists t. split; [done|]. split; [done|].
  intros Hfit. unfold end_, start. lia.
Qed.

Lemma first_hit_in_window_witness :
  first_hit_span (py "An Apple a day") [py "day"; py "apple"] - 8 / 4
  <= first_hit_span (py "An Apple a day") [py "day"; py "apple"]
  < Nat.min (length (py "An Apple a day"))
            (first_hit_span (py "An Apple a day") [py "day"; py "apple"]
             - 8 / 4 + 8)
  /\ exists t, t ∈ [py "day"; py "apple"]
       /\ ci_occurs_at t
            (first_hit_span (py "An Apple a day") [py "day"; py "apple"])
            (py "An Apple a day")
       /\ (length t <= 8 - 8 / 4 ->
           first_hit_span (py "An Apple a day") [py "day"; py "apple"]
           + length t
           <= Nat.min (length (py "An Apple a day"))
                (first_hit_span (py "An Apple a day") [py "day"; py "apple"]
                 - 8 / 4 + 8)).
Proof.
  apply (first_hit_in_window (py "An Apple a day") [py "day"; py "apple"] 8).
  - lia.
  - repeat constructor; discriminate.
  - by repeat constructor.
  - exists (py "apple"), 3. split; [right; left|].
    exists (py "An "), (py "Apple"), (py " a day"). done.
Defined.

(* ===================================================================== *)
(** ** File names and extensions *)
(* ===================================================================== *)

Lemma rfind_None (c : ascii) (s : str) : rfind c s = None <-> c ∉ s.
Proof.
  induction s as [|x s IH]; cbn [rfind].
  - split; [intros _ Hin; by apply elem_of_nil in Hin|done].
  - rewrite not_elem_of_cons. destruct (rfind c s) as [i|].
    + split; [done|]. intros [_ Hn]. by apply IH in Hn.
    + case_bool_decide as Hx.
      * split; [done|]. intros [Hn _]. by subst.
      * split; [|done]. intros _. split; [congruence|by apply IH].
Qed.

Lemma rfind_Some (c : ascii) (s : str) (i : nat) :
  rfind c s = Some i ->
  s !! i = Some c /\ c ∉ drop (S i) s.
Proof.
  revert i. induction s as [|x s IH]; intros i; cbn [rfind]; [done|].
  destruct (rfind c s) as [j|] eqn:Hr.
  - intros [= <-]. destruct (IH j eq_refl) as [Hl Hn]. done.
  - case_bool_decide as Hx; [|done]. intros [= <-]. subst.
    split; [done|]. cbn. by apply rfind_None.
Qed.

Lemma rfind_app_Some (c : ascii) (a b : str) (i : nat) :
  rfind c b = Some i -> rfind c (a ++ b) = Some (length a + i).
Proof.
  intros Hb. induction a as [|x a IH]; [done|].
  cbn [app rfind length]. by rewrite IH.
Qed.

Lemma rfind_app_None (c : ascii) (a b : str) :
  rfind c b = None -> rfind c (a ++ b) = rfind c a.
Proof.
  intros Hb. induction a as [|x a IH]; [done|].
  cbn [app rfind]. by rewrite IH.
Qed.

Lemma rfind_here (c : ascii) (a b : str) :
  c ∉ b -> rfind c (a ++ c :: b) = Some (length a).
Proof.
  intros Hb. rewrite (rfind_app_Some c a (c :: b) 0).
  - f_equal. lia.
  - cbn [rfind]. apply rfind_None in Hb. rewrite Hb.
    by rewrite bool_decide_true.
Qed.

Lemma existsb_not_dot (s : str) :
  existsb (fun x => negb (bool_decide (x = DOT))) s = true
  <-> Exists (fun x => x <> DOT) s.
Proof.
  rewrite existsb_exists, Exists_exists. split.
  - intros (x & Hin & Hx). exists x. split; [by apply list_elem_of_In|].
    apply negb_true_iff in Hx. by apply bool_decide_eq_false in Hx.
  - intros (x & Hin & Hx). exists x. split; [by apply list_elem_of_In|].
    apply negb_true_iff. by apply bool_decide_eq_false.
Qed.

(** X23: [splitext] cuts a path in two without losing a character, and
    the extension it returns is empty or is a dot followed by characters
    that are neither dots nor slashes. *)
Theorem splitext_parts (p : str) :
  ((splitext p).1 ++ (splitext p).2 = p)
  /\ ((splitext p).2 = []
      \/ exists e, (splitext p).2 = DOT :: e /\ (DOT ∉ e) /\ (SLASH ∉ e)).
Proof.
  unfold splitext. destruct (rfind DOT p) as [dot|] eqn:Hd.
  2:{ cbn. rewrite app_nil_r. by split; [|left]. }
  set (filename := match rfind SLASH p with Some i => S i | None => 0 end).
  destruct (_ && _) eqn:Hc; cbn [fst snd].
  2:{ rewrite app_nil_r. by split; [|left]. }
  split; [apply take_drop|]. right.
  apply andb_true_iff in Hc as [Hle _]. apply Nat.leb_le in Hle.
  destruct (rfind_Some _ _ _ Hd) as [Hl Hn].
  exists (drop (S dot) p). split; [|split; [done|]].
  - by apply drop_S.
  - unfold filename in Hle. destruct (rfind SLASH p) as [i|] eqn:Hs.
    + destruct (rfind_Some _ _ _ Hs) as [_ Hns]. intros Hin. apply Hns.
      replace (S dot) with (S i + (S dot - S i)) in Hin by lia.
      rewrite <- drop_drop in Hin.
      apply list_elem_of_lookup in Hin as [k Hk].
      rewrite lookup_drop in Hk. by eapply list_elem_of_lookup_2.
    + apply rfind_None in Hs. intros Hin. apply Hs.
      apply list_elem_of_lookup in Hin as [k Hk].
      rewrite lookup_drop in Hk. by eapply list_elem_of_lookup_2.
Qed.

Lemma splitext_name (pre stem e : str) :
  (pre = [] \/ last pre = Some SLASH) ->
  SLASH ∉ stem -> Exists (fun x => x <> DOT) stem ->
  DOT ∉ e -> SLASH ∉ e ->
  splitext (pre ++ stem ++ DOT :: e) = (pre ++ stem, DOT :: e).
Proof.
  intros Hpre Hs Hx Hde Hse. unfold splitext.
  rewrite app_assoc, (rfind_here DOT (pre ++ stem) e Hde).
  assert ((match rfind SLASH ((pre ++ stem) ++ DOT :: e) with
           | Some i => S i | None => 0 end) = length pre) as ->.
  { rewrite <- app_assoc, rfind_app_None.
    2:{ apply rfind_None. intros [Hin|Hin]%elem_of_app; [done|].
        apply elem_of_cons in Hin as [?|?]; done. }
    destruct Hpre as [->|Hl]; [done|].
    apply last_Some in Hl as (pre' & ->).
    rewrite (rfind_here SLASH pre' []); [|by intros ?%elem_of_nil].
    rewrite length_app. cbn. lia. }
  rewrite length_app.
  assert ((length pre <=? length pre + length stem) = true) as ->
    by (apply Nat.leb_le; lia).
  replace (length pre + length stem - length pre) with (length stem) by lia.
  rewrite <- app_assoc, drop_app_length, take_app_length.
  apply existsb_not_dot in Hx. rewrite Hx. cbn [andb].
  rewrite app_assoc.
  replace (length pre + length stem) with (length (pre ++ stem))
    by (by rewrite length_app).
  by rewrite take_app_length, drop_app_length.
Qed.

(** X24: a file name [stem.e] (no slash, a stem that is not made of
    dots only, no dot in [e]) is yielded by [walk_docs] exactly when [e],
    in lower case, is [md], [txt], [html] or [htm]; and the paths that
    [walk_docs] yields are the joins of a walked directory with such a
    name of its listing. *)
Theorem indexed_names (stem e : str) :
  SLASH ∉ stem -> Exists (fun x => x <> DOT) stem ->
  DOT ∉ e -> SLASH ∉ e ->
  (indexed (stem ++ DOT :: e) = true
   <-> lower e ∈ [py "md"; py "txt"; py "html"; py "htm"])
  /\ forall walk p,
       p ∈ walk_docs walk
       <-> exists base files fn,
             (base, files) ∈ walk /\ fn ∈ files /\ indexed fn = true
             /\ p = path_join base fn.
Proof.
  intros Hs Hx Hde Hse. split.
  - unfold indexed.
    pose proof (splitext_name [] stem e (or_introl eq_refl) Hs Hx Hde Hse)
      as Hsp.
    cbn [app] in Hsp. rewrite Hsp. cbn [snd]. rewrite bool_decide_eq_true.
    change (lower (DOT :: e)) with (lower_char DOT :: lower e).
    change (lower_char DOT) with DOT. unfold exts.
    change (py ".md") with (DOT :: py "md").
    change (py ".txt") with (DOT :: py "txt").
    change (py ".html") with (DOT :: py "html").
    change (py ".htm") with (DOT :: py "htm").
    rewrite !elem_of_cons, !elem_of_nil. split.
    + intros [H|[H|[H|[H|[]]]]]; injection H as ->; eauto.
    + intros [->|[->|[->|[->|[]]]]]; eauto.
  - intros walk p. unfold walk_docs. rewrite list_elem_of_In, in_flat_map.
    split.
    + intros ([base files] & Hin & Hp). cbn in Hp.
      apply list_elem_of_In in Hin, Hp.
      apply list_elem_of_fmap in Hp as (fn & -> & Hfn).
      apply list_elem_of_filter in Hfn as [Hix Hfn].
      exists base, files, fn. done.
    + intros (base & files & fn & Hin & Hfn & Hix & ->).
      exists (base, files). split; [by apply list_elem_of_In|].
      apply list_elem_of_In. cbn. apply list_elem_of_fmap.
      exists fn. split; [done|]. by apply list_elem_of_filter.
Qed.

Lemma indexed_names_witness :
  (indexed (py "notes" ++ DOT :: py "MD") = true
   <-> lower (py "MD") ∈ [py "md"; py "txt"; py "html"; py "htm"])
  /\ forall walk p,
       p ∈ walk_docs walk
       <-> exists base files fn,
             (base, files) ∈ walk /\ fn ∈ files /\ indexed fn = true
             /\ p = path_join base fn.
Proof.
  apply (indexed_names (py "notes") (py "MD")).
  - vm_compute. intros Hin. repeat (apply elem_of_cons in Hin as [Hin|Hin];
      [discriminate Hin|]). by apply elem_of_nil in Hin.
  - apply Exists_cons_hd. discriminate.
  - intros Hin. repeat (apply elem_of_cons in Hin as [Hin|Hin];
      [discriminate Hin|]). by apply elem_of_nil in Hin.
  - intros Hin. repeat (apply elem_of_cons in Hin as [Hin|Hin];
      [discriminate Hin|]). by apply elem_of_nil in Hin.
Defined.

Lemma starts_with_slash_absent (fn : str) :
  SLASH ∉ fn -> starts_with [SLASH] fn = false.
Proof.
  destruct fn as [|c fn]; [done|]. intros Hn. cbn [starts_with].
  rewrite bool_decide_false; [done|]. intros <-. apply Hn. by left.
Qed.

Lemma existsb_all_dots (s : str) :
  Forall (fun x => x = DOT) s ->
  existsb (fun x => negb (bool_decide (x = DOT))) s = false.
Proof.
  induction 1 as [|x s Hx _ IH]; [done|]. cbn [existsb].
  by rewrite bool_decide_true, IH.
Qed.

(** X25: a name made of leading dots followed by characters that are
    neither dots nor slashes ([.md], [README], [..txt]) has no extension
    for [splitext], and [walk_docs] never yields it. *)
Theorem dotfiles_are_not_indexed (dots rest : str) :
  Forall (fun x => x = DOT) dots -> (DOT ∉ rest) -> (SLASH ∉ rest) ->
  splitext (dots ++ rest) = (dots ++ rest, [])
  /\ indexed (dots ++ rest) = false.
Proof.
  intros Hdots Hd Hs.
  assert (splitext (dots ++ rest) = (dots ++ rest, [])) as Hsp.
  { unfold splitext.
    destruct (rfind DOT (dots ++ rest)) as [dot|] eqn:Hr; [|done].
    destruct dots as [|x dots _] using rev_ind.
    { apply rfind_None in Hd. cbn [app] in Hr. congruence. }
    apply Forall_app in Hdots as [Hdots Hx].
    apply Forall_singleton in Hx as ->.
    rewrite <- app_assoc in Hr. cbn [app] in Hr.
    rewrite rfind_here in Hr by done. injection Hr as <-.
    assert (rfind SLASH ((dots ++ [DOT]) ++ rest) = None) as ->.
    { apply rfind_None. rewrite !elem_of_app, list_elem_of_singleton.
      intros [[Hin| ?]|?]; [|done|done].
      rewrite Forall_forall in Hdots. by apply Hdots in Hin. }
    rewrite Nat.sub_0_r, drop_0, <- app_assoc, take_app_length.
    by rewrite existsb_all_dots, andb_false_r. }
  split; [done|]. unfold indexed. rewrite Hsp. cbn [snd].
  apply bool_decide_eq_false. unfold exts.
  rewrite !elem_of_cons, elem_of_nil. intros [H|[H|[H|[H|[]]]]]; discriminate H.
Qed.

Lemma dotfiles_are_not_indexed_witness :
  splitext (py "." ++ py "md") = (py "." ++ py "md", [])
  /\ indexed (py "." ++ py "md") = false.
Proof.
  apply (dotfiles_are_not_indexed (py ".") (py "md")).
  - repeat constructor.
  - intros Hin. repeat (apply elem_of_cons in Hin as [Hin|Hin];
      [discriminate Hin|]). by apply elem_of_nil in Hin.
  - intros Hin. repeat (apply elem_of_cons in Hin as [Hin|Hin];
      [discriminate Hin|]). by apply elem_of_nil in Hin.
Defined.

Lemma splitext_under_dir (d fn : str) :
  (SLASH ∉ fn) -> (splitext (d ++ SLASH :: fn)).2 = (splitext fn).2.
Proof.
  intros Hs. unfold splitext.
  rewrite (rfind_here SLASH d fn Hs).
  pose proof Hs as Hs'. apply rfind_None in Hs'. rewrite Hs'.
  destruct (rfind DOT fn) as [k|] eqn:Hk.
  - replace (d ++ SLASH :: fn) with ((d ++ [SLASH]) ++ fn)
      by (by rewrite <- app_assoc).
    rewrite (rfind_app_Some DOT (d ++ [SLASH]) fn k Hk).
    rewrite length_app. cbn [length].
    assert ((S (length d) <=? length d + 1 + k) = true) as ->
      by (apply Nat.leb_le; lia).
    replace (length d + 1 + k - S (length d)) with k by lia.
    replace (S (length d)) with (length (d ++ [SLASH]))
      by (rewrite length_app; cbn; lia).
    rewrite drop_app_length. cbn [Nat.leb]. rewrite Nat.sub_0_r, drop_0.
    destruct (_ && _); [|done]. cbn [snd].
    replace (length d + 1 + k) with (length (d ++ [SLASH]) + k)
      by (rewrite length_app; cbn; lia).
    by rewrite <- drop_drop, drop_app_length.
  - replace (d ++ SLASH :: fn) with ((d ++ [SLASH]) ++ fn)
      by (by rewrite <- app_assoc).
    rewrite (rfind_app_None DOT (d ++ [SLASH]) fn Hk).
    destruct (rfind DOT (d ++ [SLASH])) as [j|] eqn:Hj; [|done].
    apply rfind_Some in Hj as [Hj _]. apply lookup_lt_Some in Hj.
    rewrite length_app in Hj. cbn [length] in Hj.
    assert ((S (length d) <=? j) = false) as ->
      by (apply Nat.leb_gt; lia).
    done.
Qed.

(** X26: the scanner and the loader see the same extension.  [walk_docs]
    tests the extension of the bare file name, [file_to_text] that of the
    joined path; for a file name (no slash) the two are equal, whatever
    the directory. *)
Theorem joined_path_keeps_extension (base fn : str) :
  (SLASH ∉ fn) ->
  (splitext (path_join base fn)).2 = (splitext fn).2.
Proof.
  intros Hs. unfold path_join. rewrite (starts_with_slash_absent fn Hs).
  case_bool_decide as Hb; [by subst|]. cbn [orb].
  case_bool_decide as Hl.
  - apply last_Some in Hl as (b' & ->). rewrite <- app_assoc. cbn [app].
    by apply splitext_under_dir.
  - by apply splitext_under_dir.
Qed.

Lemma joined_path_keeps_extension_witness :
  (splitext (path_join (py "/srv/docs.d") (py "notes.md"))).2
  = (splitext (py "notes.md")).2.
Proof.
  apply (joined_path_keeps_extension (py "/srv/docs.d") (py "notes.md")).
  intros Hin. repeat (apply elem_of_cons in Hin as [Hin|Hin];
    [discriminate Hin|]). by apply elem_of_nil in Hin.
Defined.

(* ===================================================================== *)
(** ** The path guard of [/raw] and [/open] *)
(* ===================================================================== *)

Lemma split_from_clean (sep : ascii) (c : str) : forall cur,
  (sep ∉ c) -> split_from sep cur c = [cur ++ c].
Proof.
  induction c as [|x c IH]; intros cur Hn; cbn [split_from].
  - by rewrite app_nil_r.
  - apply not_elem_of_cons in Hn as [Hx Hn].
    rewrite bool_decide_false by congruence.
    rewrite IH by done. by rewrite <- app_assoc.
Qed.

Lemma split_from_app (sep : ascii) (a b : str) : forall cur,
  split_from sep cur (a ++ sep :: b) = split_from sep cur a ++ split sep b.
Proof.
  induction a as [|x a IH]; intros cur; cbn [app split_from].
  - by rewrite bool_decide_true.
  - case_bool_decide; by rewrite IH.
Qed.

Lemma join_with_cons (sep x : str) (l : list str) :
  l <> [] -> join_with sep (x :: l) = x ++ sep ++ join_with sep l.
Proof. by destruct l. Qed.

Lemma split_join (sep : ascii) (cs : list str) :
  Forall (fun c => sep ∉ c) cs -> cs <> [] ->
  split sep (join_with [sep] cs) = cs.
Proof.
  induction 1 as [|c cs Hc Hcs IH]; intros Hne; [done|].
  destruct cs as [|c' cs].
  - cbn [join_with]. unfold split. by rewrite split_from_clean.
  - rewrite join_with_cons by done. cbn [app]. unfold split.
    rewrite split_from_app, split_from_clean by done.
    cbn [app]. f_equal. by apply IH.
Qed.

Lemma join_with_snoc (sep : str) (cs : list str) :
  exists pre, forall x l,
    join_with sep (cs ++ x :: l) = pre ++ join_with sep (x :: l).
Proof.
  induction cs as [|c cs [pre IH]].
  - by exists [].
  - exists (c ++ sep ++ pre). intros x l. cbn [app].
    rewrite join_with_cons by (by destruct cs).
    by rewrite IH, <- !app_assoc.
Qed.

Lemma join_with_app (sep : str) (l1 l2 : list str) :
  l1 <> [] -> l2 <> [] ->
  join_with sep (l1 ++ l2) = join_with sep l1 ++ sep ++ join_with sep l2.
Proof.
  intros H1 H2. induction l1 as [|c l1 IH]; [done|].
  destruct l1 as [|c' l1].
  - cbn [app]. by rewrite join_with_cons.
  - cbn [app]. rewrite join_with_cons by done.
    rewrite (join_with_cons sep c (c' :: l1)) by done.
    cbn [app] in IH. rewrite IH by done. by rewrite <- !app_assoc.
Qed.

Lemma component_slash (c : str) : component c -> SLASH ∉ c.
Proof. by intros (_ & H & _). Qed.

Lemma norm_step_component (rooted : bool) (acc : list str) (c : str) :
  component c -> norm_step rooted acc c = acc ++ [c].
Proof.
  intros (Hne & _ & Hd & Hdd). unfold norm_step.
  rewrite !bool_decide_false by done. done.
Qed.

Lemma foldl_norm_components (rooted : bool) (cs : list str) : forall acc,
  Forall component cs -> foldl (norm_step rooted) acc cs = acc ++ cs.
Proof.
  induction cs as [|c cs IH]; intros acc Hcs; cbn [foldl].
  - by rewrite app_nil_r.
  - apply Forall_cons in Hcs as [Hc Hcs].
    rewrite norm_step_component, IH by done. by rewrite <- app_assoc.
Qed.

Lemma norm_step_dotdot (acc : list str) (c : str) :
  component c -> norm_step true (acc ++ [c]) [DOT; DOT] = acc.
Proof.
  intros (_ & _ & _ & Hdd). unfold norm_step.
  rewrite (bool_decide_false ([DOT; DOT] = [])) by done.
  rewrite (bool_decide_false ([DOT; DOT] = [DOT])) by done.
  rewrite (bool_decide_true ([DOT; DOT] = [DOT; DOT])) by done.
  rewrite last_snoc.
  rewrite (bool_decide_false (Some c = Some [DOT; DOT]))
    by (intros [= H]; done).
  cbn [negb orb andb]. apply removelast_last.
Qed.

Lemma join_components_head (cs : list str) (x : str) :
  Forall component cs -> cs <> [] ->
  starts_with [SLASH] (join_with [SLASH] cs ++ x) = false.
Proof.
  intros Hcs Hne. destruct cs as [|c cs]; [done|].
  apply Forall_cons in Hcs as [(Hc & Hs & _) _].
  destruct c as [|a c]; [done|].
  assert (exists r, join_with [SLASH] ((a :: c) :: cs) ++ x = a :: r)
    as [r ->] by (destruct cs; eexists; done).
  cbn [starts_with]. rewrite bool_decide_false; [done|].
  intros <-. apply Hs. by left.
Qed.

(** [normpath] on an absolute path whose components are separated by
    single slashes. *)
Lemma normpath_abs (cs : list str) :
  Forall (fun c => SLASH ∉ c) cs -> cs <> [] ->
  head cs <> Some [] ->
  normpath (abs_of cs)
  = SLASH :: join_with [SLASH] (foldl (norm_step true) [] cs).
Proof.
  intros Hcs Hne Hhd.
  assert (exists a r, join_with [SLASH] cs = a :: r /\ a <> SLASH)
    as (a & r & Hj & Ha).
  { destruct cs as [|c cs]; [done|]. destruct c as [|a c]; [done|].
    apply Forall_cons in Hcs as [Hs _].
    assert (exists r, join_with [SLASH] ((a :: c) :: cs) = a :: r)
      as [r ->] by (destruct cs; eexists; done).
    exists a, r. split; [done|]. intros ->. apply Hs. by left. }
  assert (split SLASH (abs_of cs) = [] :: cs) as Hsp.
  { unfold abs_of, split. cbn [split_from]. rewrite bool_decide_true by done.
    fold (split SLASH (join_with [SLASH] cs)). by rewrite split_join. }
  unfold normpath. rewrite Hsp. unfold abs_of. rewrite Hj.
  cbn [starts_with]. rewrite !bool_decide_true by done.
  rewrite (bool_decide_false (SLASH = a)) by done.
  cbn [andb negb]. cbn [Nat.ltb Nat.leb replicate foldl app].
  unfold norm_step at 2.
  rewrite (bool_decide_true ([] = [])) by done. cbn [orb]. done.
Qed.

Lemma unbackslash_id (s : str) : no_backslash s -> unbackslash s = s.
Proof.
  induction 1 as [|c s Hc _ IH]; [done|]. cbn [unbackslash map].
  fold (unbackslash s). rewrite IH.
  by destruct (Nat.eqb_spec (code c) 92).
Qed.

Lemma no_backslash_join (cs : list str) :
  Forall no_backslash cs -> no_backslash (join_with [SLASH] cs).
Proof.
  induction 1 as [|c cs Hc Hcs IH]; [constructor|].
  destruct cs as [|c' cs]; [done|]. rewrite join_with_cons by done.
  apply Forall_app. split; [done|]. apply Forall_app. split; [|done].
  constructor; [|constructor]. vm_compute. discriminate.
Qed.

Lemma abs_of_last (cs : list str) (name : str) :
  component name -> last (abs_of (cs ++ [name])) <> Some SLASH.
Proof.
  intros (Hne & Hs & _). unfold abs_of.
  destruct (join_with_snoc [SLASH] cs) as [pre Hpre]. rewrite Hpre.
  cbn [join_with]. destruct name as [|a name _] using rev_ind; [done|].
  rewrite app_assoc, app_comm_cons, last_snoc. intros [= ->].
  apply Hs. apply elem_of_app. right. by left.
Qed.

(** The path the handlers resolve, for a root and a relative path given
    by their components. *)
Lemma resolve_components (root_cs rel_cs : list str) :
  Forall component root_cs -> root_cs <> [] ->
  Forall (fun c => SLASH ∉ c) rel_cs -> rel_cs <> [] ->
  head rel_cs <> Some [] ->
  Forall no_backslash rel_cs ->
  resolve (abs_of root_cs) (join_with [SLASH] rel_cs)
  = SLASH :: join_with [SLASH] (foldl (norm_step true) root_cs rel_cs).
Proof.
  intros Hroot Hne Hrel Hne' Hhd Hnb. unfold resolve.
  rewrite unbackslash_id by (by apply no_backslash_join).
  assert (path_join (abs_of root_cs) (join_with [SLASH] rel_cs)
          = abs_of (root_cs ++ rel_cs)) as ->.
  { unfold path_join.
    assert (starts_with [SLASH] (join_with [SLASH] rel_cs) = false) as ->.
    { destruct rel_cs as [|c cs]; [done|]. destruct c as [|a c]; [done|].
      apply Forall_cons in Hrel as [Hs _].
      assert (exists r, join_with [SLASH] ((a :: c) :: cs) = a :: r)
        as [r ->] by (destruct cs; eexists; done).
      cbn [starts_with]. rewrite bool_decide_false; [done|].
      intros <-. apply Hs. by left. }
    rewrite (bool_decide_false (abs_of root_cs = [])) by done.
    destruct (exists_last Hne) as (l0 & r0 & Heq).
    assert (component r0) as Hr0.
    { rewrite Heq in Hroot. apply Forall_app in Hroot as [_ Hr0].
      exact (Forall_inv Hr0). }
    rewrite bool_decide_false
      by (rewrite Heq; by apply abs_of_last).
    cbn [orb]. unfold abs_of. by rewrite (join_with_app _ root_cs). }
  rewrite normpath_abs.
  - rewrite foldl_app. by rewrite (foldl_norm_components true root_cs []).
  - apply Forall_app. split; [|done].
    eapply Forall_impl; [exact Hroot|]. apply component_slash.
  - by destruct root_cs.
  - destruct root_cs as [|c cs]; [done|].
    apply Forall_cons in Hroot as [(Hc & _) _]. cbn. congruence.
Qed.

Lemma starts_with_app_same (p a b : str) :
  starts_with (p ++ a) (p ++ b) = starts_with a b.
Proof.
  induction p as [|c p IH]; [done|]. cbn [app starts_with].
  by rewrite bool_decide_true.
Qed.

Lemma starts_with_component (name file : str) : forall other,
  (SLASH ∉ name) ->
  starts_with name (other ++ SLASH :: file) = starts_with name other.
Proof.
  induction name as [|a name IH]; intros other Hs; [by destruct other|].
  apply not_elem_of_cons in Hs as [Ha Hs].
  destruct other as [|c other]; cbn [app starts_with].
  - by rewrite bool_decide_false by congruence.
  - by rewrite IH.
Qed.

Lemma app_slash_inj (a b x y : str) :
  (SLASH ∉ a) -> (SLASH ∉ b) ->
  a ++ SLASH :: x = b ++ SLASH :: y -> a = b.
Proof.
  revert b. induction a as [|c a IH]; intros b Ha Hb Heq.
  - destruct b as [|d b]; [done|]. cbn in Heq. injection Heq as <- _.
    destruct Hb. by left.
  - apply not_elem_of_cons in Ha as [Hc Ha].
    destruct b as [|d b].
    + cbn in Heq. injection Heq as -> _. done.
    + cbn in Heq. injection Heq as -> Heq.
      apply not_elem_of_cons in Hb as [_ Hb]. f_equal. by apply IH.
Qed.

(** X27: the guard of [/raw] and [/open] is a test on strings, not on
    directories.  For a request [../other/file] the path resolved is the
    sibling [other] of the root directory, and the prefix test lets it
    through exactly when the root directory's name is a prefix of
    [other]: with the root [/srv/docs], the file [/srv/docs-private/key.txt]
    is served although it lies outside the root. *)
Theorem guard_is_a_string_prefix_test (exists_ : str -> bool)
    (cs : list str) (name other file : str) :
  Forall component cs -> component name ->
  component other -> component file ->
  no_backslash other -> no_backslash file ->
  resolve (abs_of (cs ++ [name])) (py "../" ++ other ++ SLASH :: file)
  = abs_of (cs ++ [other; file])
  /\ starts_with (abs_of (cs ++ [name])) (abs_of (cs ++ [other; file]))
     = starts_with name other
  /\ (other <> name ->
      starts_with (abs_of (cs ++ [name]) ++ [SLASH])
                  (abs_of (cs ++ [other; file])) = false)
  /\ served exists_ (abs_of (cs ++ [name]))
            (py "../" ++ other ++ SLASH :: file)
     = if starts_with name other && exists_ (abs_of (cs ++ [other; file]))
       then Some (abs_of (cs ++ [other; file]))
       else None.
Proof.
  intros Hcs Hname Hother Hfile Hnbo Hnbf.
  assert (resolve (abs_of (cs ++ [name]))
                  (py "../" ++ other ++ SLASH :: file)
          = abs_of (cs ++ [other; file])) as Hres.
  { change (py "../" ++ other ++ SLASH :: file)
      with (join_with [SLASH] [[DOT; DOT]; other; file]).
    rewrite resolve_components.
    - cbn [foldl]. rewrite norm_step_dotdot by done.
      rewrite !norm_step_component by done.
      by rewrite <- app_assoc.
    - apply Forall_app. split; [done|]. by constructor.
    - by destruct cs.
    - repeat constructor.
      + intros Hin. repeat (apply elem_of_cons in Hin as [Hin|Hin];
          [discriminate Hin|]). by apply elem_of_nil in Hin.
      + by apply component_slash.
      + by apply component_slash.
    - done.
    - done.
    - repeat constructor; try done; vm_compute; discriminate. }
  assert (starts_with (abs_of (cs ++ [name])) (abs_of (cs ++ [other; file]))
          = starts_with name other) as Hpre.
  { unfold abs_of. destruct (join_with_snoc [SLASH] cs) as [pre Hj].
    rewrite !Hj. cbn [join_with].
    rewrite !app_comm_cons, starts_with_app_same.
    cbn [app]. apply starts_with_component. by apply component_slash. }
  split; [done|]. split; [done|]. split.
  - intros Hdiff. unfold abs_of.
    destruct (join_with_snoc [SLASH] cs) as [pre Hj].
    rewrite !Hj. cbn [join_with].
    rewrite !app_comm_cons, <- app_assoc, starts_with_app_same.
    destruct (starts_with (name ++ [SLASH]) (other ++ [SLASH] ++ file))
      eqn:Hst; [|done].
    apply starts_with_true in Hst as [post Hpost].
    rewrite <- app_assoc in Hpost. cbn [app] in Hpost.
    apply app_slash_inj in Hpost; [done| |]; by apply component_slash.
  - unfold served. rewrite Hres, Hpre.
    destruct (starts_with name other); [|done].
    by destruct (exists_ _).
Qed.

Lemma guard_is_a_string_prefix_test_witness :
  resolve (abs_of ([py "srv"] ++ [py "docs"]))
          (py "../" ++ py "docs-private" ++ SLASH :: py "key.txt")
  = abs_of ([py "srv"] ++ [py "docs-private"; py "key.txt"])
  /\ starts_with (abs_of ([py "srv"] ++ [py "docs"]))
                 (abs_of ([py "srv"] ++ [py "docs-private"; py "key.txt"]))
     = starts_with (py "docs") (py "docs-private")
  /\ (py "docs-private" <> py "docs" ->
      starts_with (abs_of ([py "srv"] ++ [py "docs"]) ++ [SLASH])
                  (abs_of ([py "srv"] ++ [py "docs-private"; py "key.txt"]))
      = false)
  /\ served (fun _ => true) (abs_of ([py "srv"] ++ [py "docs"]))
            (py "../" ++ py "docs-private" ++ SLASH :: py "key.txt")
     = if starts_with (py "docs") (py "docs-private")
          && (fun _ => true)
               (abs_of ([py "srv"] ++ [py "docs-private"; py "key.txt"]))
       then Some (abs_of ([py "srv"] ++ [py "docs-private"; py "key.txt"]))
       else None.
Proof.
  assert (forall s : str,
            bool_decide (SLASH ∈ s) = false -> s <> [] ->
            s <> [DOT] -> s <> [DOT; DOT] -> component s) as Hcomp.
  { intros s Hs ? ? ?. split; [done|]. split; [|done].
    by apply bool_decide_eq_false in Hs. }
  assert (forall s : str,
            forallb (fun c => negb (code c =? 92)%nat) s = true ->
            no_backslash s) as Hnb.
  { intros s Hs. apply Forall_forall. intros c Hc.
    rewrite forallb_forall in Hs. apply list_elem_of_In in Hc.
    specialize (Hs c Hc). apply negb_true_iff in Hs.
    by apply Nat.eqb_neq in Hs. }
  apply (guard_is_a_string_prefix_test (fun _ => true) [py "srv"]
           (py "docs") (py "docs-private") (py "key.txt")).
  - constructor; [|constructor]. by apply Hcomp.
  - by apply Hcomp.
  - by apply Hcomp.
  - by apply Hcomp.
  - by apply Hnb.
  - by apply Hnb.
Defined.

(** X28: a request for a path made of ordinary components (no empty
    one, no [.] or [..], no backslash) resolves to that path below the
    root directory and is served exactly when the file exists. *)
Theorem plain_path_is_served (exists_ : str -> bool)
    (root_cs rel_cs : list str) :
  Forall component root_cs -> root_cs <> [] ->
  Forall component rel_cs -> rel_cs <> [] ->
  Forall no_backslash rel_cs ->
  resolve (abs_of root_cs) (join_with [SLASH] rel_cs)
  = abs_of root_cs ++ SLASH :: join_with [SLASH] rel_cs
  /\ served exists_ (abs_of root_cs) (join_with [SLASH] rel_cs)
     = if exists_ (abs_of root_cs ++ SLASH :: join_with [SLASH] rel_cs)
       then Some (abs_of root_cs ++ SLASH :: join_with [SLASH] rel_cs)
       else None.
Proof.
  intros Hroot Hne Hrel Hne' Hnb.
  assert (resolve (abs_of root_cs) (join_with [SLASH] rel_cs)
          = abs_of root_cs ++ SLASH :: join_with [SLASH] rel_cs) as Hres.
  { rewrite resolve_components; try done.
    - rewrite foldl_norm_components by done. unfold abs_of.
      by rewrite join_with_app.
    - eapply Forall_impl; [exact Hrel|]. apply component_slash.
    - destruct rel_cs as [|c cs]; [done|].
      apply Forall_cons in Hrel as [(Hc & _) _]. cbn. congruence. }
  split; [done|]. unfold served. rewrite Hres.
  assert (starts_with (abs_of root_cs)
            (abs_of root_cs ++ SLASH :: join_with [SLASH] rel_cs) = true)
    as -> by (apply starts_with_true; eauto).
  cbn [negb orb]. by destruct (exists_ _).
Qed.

Lemma plain_path_is_served_witness :
  resolve (abs_of [py "srv"; py "docs"])
          (join_with [SLASH] [py "notes"; py "a.md"])
  = abs_of [py "srv"; py "docs"]
    ++ SLASH :: join_with [SLASH] [py "notes"; py "a.md"]
  /\ served (fun _ => true) (abs_of [py "srv"; py "docs"])
            (join_with [SLASH] [py "notes"; py "a.md"])
     = if (fun _ => true)
            (abs_of [py "srv"; py "docs"]
             ++ SLASH :: join_with [SLASH] [py "notes"; py "a.md"])
       then Some (abs_of [py "srv"; py "docs"]
                  ++ SLASH :: join_with [SLASH] [py "notes"; py "a.md"])
       else None.
Proof.
  assert (forall s : str,
            bool_decide (SLASH ∈ s) = false -> s <> [] ->
            s <> [DOT] -> s <> [DOT; DOT] -> component s) as Hcomp.
  { intros s Hs ? ? ?. split; [done|]. split; [|done].
    by apply bool_decide_eq_false in Hs. }
  assert (forall s : str,
            forallb (fun c => negb (code c =? 92)%nat) s = true ->
            no_backslash s) as Hnb.
  { intros s Hs. apply Forall_forall. intros c Hc.
    rewrite forallb_forall in Hs. apply list_elem_of_In in Hc.
    specialize (Hs c Hc). apply negb_true_iff in Hs.
    by apply Nat.eqb_neq in Hs. }
  apply (plain_path_is_served (fun _ => true) [py "srv"; py "docs"]
           [py "notes"; py "a.md"]).
  - constructor; [by apply Hcomp|]. constructor; [by apply Hcomp|].
    constructor.
  - done.
  - constructor; [by apply Hcomp|]. constructor; [by apply Hcomp|].
    constructor.
  - done.
  - constructor; [by apply Hnb|]. constructor; [by apply Hnb|].
    constructor.
Defined.

(* ===================================================================== *)
(** ** Quoting for the shell *)
(* ===================================================================== *)

Lemma shquote_body_inj (s1 : str) : forall s2 r1 r2,
  concat (map (fun c => if (code c =? 39)%nat then py "'\''" else [c]) s1)
    ++ py "'" ++ r1
  = concat (map (fun c => if (code c =? 39)%nat then py "'\''" else [c]) s2)
    ++ py "'" ++ r2 ->
  length r1 = length r2 ->
  s1 = s2.
Proof.
  induction s1 as [|c1 s1 IH]; intros s2 r1 r2 Heq Hlen.
  - destruct s2 as [|c2 s2]; [done|]. exfalso.
    apply (f_equal length) in Heq. revert Heq.
    cbn [map concat]. rewrite !length_app.
    destruct (code c2 =? 39)%nat; cbn; lia.
  - destruct s2 as [|c2 s2].
    + exfalso. apply (f_equal length) in Heq. revert Heq.
      cbn [map concat]. rewrite !length_app.
      destruct (code c1 =? 39)%nat; cbn; lia.
    + cbn [map concat] in Heq. rewrite <- !app_assoc in Heq.
      destruct (Nat.eqb_spec (code c1) 39) as [H1|H1];
        destruct (Nat.eqb_spec (code c2) 39) as [H2|H2].
      * assert (c1 = c2) as <-.
        { rewrite <- (ascii_nat_embedding c1), <- (ascii_nat_embedding c2).
          unfold code in *. congruence. }
        f_equal. apply (IH s2 r1 r2); [|done].
        by apply (app_inv_head (py "'\''")).
      * exfalso. cbn in Heq. injection Heq as Hc _.
        apply H2. by rewrite <- Hc.
      * exfalso. cbn in Heq. injection Heq as Hc _.
        apply H1. by rewrite Hc.
      * cbn in Heq. injection Heq as -> Heq. f_equal.
        by apply (IH s2 r1 r2).
Qed.

(** X29: [shquote] encloses its argument in single quotes, adds three
    characters for every single quote in it and nothing else, and never
    maps two different strings to the same word. *)
Theorem shquote_injective (s1 s2 : str) :
  length (shquote s1)
  = length s1 + 2 + 3 * length (filter (fun c => code c = 39) s1)
  /\ (shquote s1 = shquote s2 -> s1 = s2).
Proof.
  split.
  - unfold shquote. rewrite !length_app.
    change (length (py "'")) with 1.
    assert (length
              (concat (map (fun c => if (code c =? 39)%nat
                                     then py "'\''" else [c]) s1))
            = length s1 + 3 * length (filter (fun c => code c = 39) s1))
      as ->; [|lia].
    induction s1 as [|c s1 IH]; [done|].
    cbn [map concat]. rewrite length_app, IH, filter_cons.
    destruct (Nat.eqb_spec (code c) 39) as [Hc|Hc].
    + rewrite decide_True by done.
      change (length (py "'\''")) with 4. cbn [length]. lia.
    + rewrite decide_False by done. cbn [length]. lia.
  - unfold shquote. intros Heq. apply app_inv_head in Heq.
    apply (shquote_body_inj s1 s2 [] []); [|done].
    by rewrite !app_nil_r.
Qed.
